(** * railrepay-shared-libs: a shallow embedding of the client wrappers

    JavaScript strings are modelled as lists of characters ([jsstr]); only
    the ASCII part of the character classes matters for the inputs below.
    A JavaScript object used as a dictionary ([Record<string, number>]) is a
    stdpp [gmap]. *)

From Stdlib Require Import Ascii String.
From stdpp Require Import base list gmap strings.

Abbreviation jsstr := (list ascii).

(* ===================================================================== *)
(** ** Character classes of the regular expressions *)
(* ===================================================================== *)

Definition in_range (lo hi : nat) (c : ascii) : bool :=
  (lo <=? nat_of_ascii c)%nat && (nat_of_ascii c <=? hi)%nat.

(** [\s] restricted to ASCII: TAB, LF, VT, FF, CR and SPACE. *)
Definition is_ws (c : ascii) : bool :=
  in_range 9 13 c || Ascii.eqb c " "%char.

(** [\d] and [0-9]. *)
Definition is_digit (c : ascii) : bool := in_range 48 57 c.

Definition is_alpha (c : ascii) : bool := in_range 65 90 c || in_range 97 122 c.

(** [[a-zA-Z_:]] *)
Definition is_name_start (c : ascii) : bool :=
  is_alpha c || Ascii.eqb c "_"%char || Ascii.eqb c ":"%char.

(** [[a-zA-Z0-9_:]] *)
Definition is_name_char (c : ascii) : bool := is_name_start c || is_digit c.

(** [[0-9.eE+-]] *)
Definition is_value_char (c : ascii) : bool :=
  is_digit c || Ascii.eqb c "."%char || Ascii.eqb c "e"%char
  || Ascii.eqb c "E"%char || Ascii.eqb c "+"%char || Ascii.eqb c "-"%char.

Fixpoint take_while (p : ascii -> bool) (s : jsstr) : jsstr :=
  match s with
  | c :: s' => if p c then c :: take_while p s' else []
  | [] => []
  end.

Fixpoint drop_while (p : ascii -> bool) (s : jsstr) : jsstr :=
  match s with
  | c :: s' => if p c then drop_while p s' else s
  | [] => []
  end.

(* ===================================================================== *)
(** ** A backtracking regular-expression matcher

    The matcher follows the ECMAScript semantics of the constructs the
    parser uses: greedy quantifiers that give back one character at a time
    on failure, optional groups that try the group before skipping it, and
    [$] that only matches at the end of the input (no [m] flag).  A matcher
    takes its continuation [k] (the rest of the pattern) and the remaining
    input. *)
(* ===================================================================== *)

Section Matcher.
Context {A : Type}.

(** [p*], greedy *)
Fixpoint star (p : ascii -> bool) (k : jsstr -> option A) (s : jsstr) : option A :=
  match s with
  | c :: s' =>
      if p c then
        match star p k s' with
        | Some r => Some r
        | None => k s
        end
      else k s
  | [] => k s
  end.

(** [p+], greedy *)
Definition plus (p : ascii -> bool) (k : jsstr -> option A) (s : jsstr) : option A :=
  match s with
  | c :: s' => if p c then star p k s' else None
  | [] => None
  end.

(** [(?:g)?], greedy *)
Definition opt (g : (jsstr -> option A) -> jsstr -> option A)
    (k : jsstr -> option A) (s : jsstr) : option A :=
  match g k s with
  | Some r => Some r
  | None => k s
  end.

(** [$] without the multiline flag *)
Definition eos (r : A) (s : jsstr) : option A :=
  match s with
  | [] => Some r
  | _ :: _ => None
  end.

(** [String.prototype.match] with a non-global regex: the first start
    position, from the left, at which the sticky matcher succeeds. *)
Fixpoint search (m : jsstr -> option A) (s : jsstr) : option A :=
  match m s with
  | Some r => Some r
  | None =>
      match s with
      | [] => None
      | _ :: s' => search m s'
      end
  end.
End Matcher.

(** The text of a capture group that starts at [start] and ends where [rest]
    starts. *)
Definition capture (start rest : jsstr) : jsstr := take (length start - length rest) start.

(** The name regex of the source, [^([a-zA-Z_:][a-zA-Z0-9_:] STAR)] with
    STAR the Kleene star, group 1.  The [^] anchor only matches at position
    0, so the search is the sticky match at the start. *)
Definition name_re (line : jsstr) : option jsstr :=
  match line with
  | c :: s' =>
      if is_name_start c then star is_name_char (fun r => Some (capture line r)) s'
      else None
  | [] => None
  end.

(** [/\s+([0-9.eE+-]+)(?:\s+\d+)?$/] at a fixed start position, group 1. *)
Definition value_re_at (s : jsstr) : option jsstr :=
  plus is_ws (fun s1 =>
    plus is_value_char (fun s2 =>
      opt (fun k => plus is_ws (plus is_digit k)) (eos (capture s1 s2)) s2) s1) s.

(** [line.match(/\s+([0-9.eE+-]+)(?:\s+\d+)?$/)], group 1. *)
Definition value_re (line : jsstr) : option jsstr := search value_re_at line.

(* ===================================================================== *)
(** ** [parseFloat]

    ECMAScript [parseFloat]: skip leading white space, then read the
    longest prefix that is a [StrDecimalLiteral]
    ([[+-]? (Infinity | digits [. digits?] [exp] | . digits [exp])], with
    [exp] = [[eE] [+-]? digits]); [NaN] when there is none.  The result is
    kept as the decimal literal that was read; the final rounding of that
    literal to a double is a fixed function of it and plays no part in the
    properties below.  [None] is [NaN]. *)
(* ===================================================================== *)

Inductive jsnum :=
| JFinite (neg : bool) (int_digits frac_digits : jsstr) (exponent : option (bool * jsstr))
| JInfinity (neg : bool).

Definition js (s : string) : jsstr := list_ascii_of_string s.

Fixpoint starts_with (pre s : jsstr) : bool :=
  match pre, s with
  | [], _ => true
  | p :: pre', c :: s' => Ascii.eqb p c && starts_with pre' s'
  | _ :: _, [] => false
  end.

(** An optional sign: [(negative, rest)]. *)
Definition read_sign (s : jsstr) : bool * jsstr :=
  match s with
  | c :: s' =>
      if Ascii.eqb c "+"%char then (false, s')
      else if Ascii.eqb c "-"%char then (true, s')
      else (false, s)
  | [] => (false, s)
  end.

(** [ExponentPart], if a complete one starts here. *)
Definition read_exponent (s : jsstr) : option (bool * jsstr) :=
  match s with
  | c :: s' =>
      if Ascii.eqb c "e"%char || Ascii.eqb c "E"%char then
        let '(eneg, s'') := read_sign s' in
        match take_while is_digit s'' with
        | [] => None
        | d => Some (eneg, d)
        end
      else None
  | [] => None
  end.

Definition parseFloat (input : jsstr) : option jsnum :=
  let '(neg, u) := read_sign (drop_while is_ws input) in
  if starts_with (js "Infinity") u then Some (JInfinity neg)
  else
    let d1 := take_while is_digit u in
    let r1 := drop_while is_digit u in
    let '(d2, r2) :=
      match r1 with
      | c :: r =>
          if Ascii.eqb c "."%char then (take_while is_digit r, drop_while is_digit r)
          else ([], r1)
      | [] => ([], r1)
      end in
    match d1, d2 with
    | [], [] => None
    | _, _ => Some (JFinite neg d1 d2 (read_exponent r2))
    end.

(* ===================================================================== *)
(** ** [MetricsPusher.parsePrometheusMetrics] *)
(* ===================================================================== *)

(** [s.split(sep)] for a one-character separator. *)
Fixpoint split_on (sep : ascii) (s : jsstr) : list jsstr :=
  match s with
  | [] => [[]]
  | c :: s' =>
      let rest := split_on sep s' in
      if Ascii.eqb c sep then [] :: rest
      else
        match rest with
        | l :: ls => (c :: l) :: ls
        | [] => [[c]]
        end
  end.

(** [s.trim()] *)
Definition trim (s : jsstr) : jsstr := rev (drop_while is_ws (rev (drop_while is_ws s))).

(** [obj[key] = v] on an object created by the literal [{}], whose values
    are numbers.  The key [__proto__] does not create a property: it reaches
    the accessor that [Object.prototype] defines for it, whose setter ignores
    a value that is not an object. *)
Definition set_prop (obj : gmap jsstr jsnum) (key : jsstr) (v : jsnum) : gmap jsstr jsnum :=
  if bool_decide (key = js "__proto__") then obj else <[key := v]> obj.

(** The body of the [for (const line of lines)] loop. *)
Definition parse_line (metrics : gmap jsstr jsnum) (line : jsstr) : gmap jsstr jsnum :=
  (* Skip comments and empty lines *)
  if starts_with (js "#") line || bool_decide (trim line = []) then metrics
  else
    match name_re line, value_re line with
    | Some metricName, Some valueText =>
        match parseFloat valueText with
        | Some numericValue => set_prop metrics metricName numericValue
        | None => metrics (* Skip NaN values *)
        end
    | _, _ => metrics
    end.

Definition parsePrometheusMetrics (metricsString : jsstr) : gmap jsstr jsnum :=
  fold_left parse_line (split_on "010"%char metricsString) ∅.


(** *** The parser's contract, stated without regular expressions

    These definitions follow the wording of the contract: a sample line is
    a line that is not a comment and not blank, that starts with a
    metric-name character (the name is the longest run of name characters
    at the start), and that ends with white space, a value token of
    characters [[0-9.eE+-]] and, optionally, white space and an all-digit
    timestamp.  When the line can be read both ways, the reading with the
    timestamp is the one taken. *)

Definition metric_name (line : jsstr) : option jsstr :=
  match line with
  | c :: _ => if is_name_start c then Some (take_while is_name_char line) else None
  | [] => None
  end.

(** On the reversed line [r]: the last run of value characters [t1], the
    white space [w1] before it, the run of value characters [t2] before
    that and the white space [w2] before [t2]. *)
Definition trailing_token_rev (r : jsstr) : option jsstr :=
  let t1 := take_while is_value_char r in
  let r1 := drop_while is_value_char r in
  let w1 := take_while is_ws r1 in
  let r2 := drop_while is_ws r1 in
  let t2 := take_while is_value_char r2 in
  let r3 := drop_while is_value_char r2 in
  let w2 := take_while is_ws r3 in
  match t1, w1 with
  | [], _ | _, [] => None
  | _, _ =>
      match t2, w2 with
      | _ :: _, _ :: _ => if forallb is_digit t1 then Some (rev t2) else Some (rev t1)
      | _, _ => Some (rev t1)
      end
  end.

Definition trailing_token (line : jsstr) : option jsstr := trailing_token_rev (rev line).

Definition is_blank (line : jsstr) : bool := forallb is_ws line.

(** The sample a line carries, if any. *)
Definition line_sample (line : jsstr) : option (jsstr * jsnum) :=
  if starts_with (js "#") line || is_blank line then None
  else
    match metric_name line, trailing_token line with
    | Some name, Some tok => (fun x => (name, x)) <$> parseFloat tok
    | _, _ => None
    end.

(** The value of the last sample named [k] among [lines]. *)
Definition last_value (k : jsstr) (lines : list jsstr) : option jsnum :=
  fold_left (fun acc line =>
    match line_sample line with
    | Some (name, x) => if bool_decide (name = k) then Some x else acc
    | None => acc
    end) lines None.

(** The contract's reading of a line's name: its leading token, the text
    before any label block ([{]) or white space, taken when it is a valid
    metric name. *)
Definition leading_token (line : jsstr) : jsstr :=
  take_while (fun c => negb (Ascii.eqb c "{"%char || is_ws c)) line.

(** [[a-zA-Z_:][a-zA-Z0-9_:]*] *)
Definition valid_metric_name (t : jsstr) : bool :=
  match t with
  | c :: _ => is_name_start c && forallb is_name_char t
  | [] => false
  end.

(** A line on which both readings agree: when it starts with a name
    character, its leading token is a valid metric name. *)
Definition names_delimited (line : jsstr) : bool :=
  match line with
  | c :: _ => negb (is_name_start c) || valid_metric_name (leading_token line)
  | [] => true
  end.

(** The sample a line carries, its name read as the leading token. *)
Definition line_sample_token (line : jsstr) : option (jsstr * jsnum) :=
  if starts_with (js "#") line || is_blank line then None
  else if valid_metric_name (leading_token line) then
    match trailing_token line with
    | Some tok => (fun x => (leading_token line, x)) <$> parseFloat tok
    | None => None
    end
  else None.

(** The value of the last such sample named [k] among [lines]. *)
Definition last_token_value (k : jsstr) (lines : list jsstr) : option jsnum :=
  fold_left (fun acc line =>
    match line_sample_token line with
    | Some (name, x) => if bool_decide (name = k) then Some x else acc
    | None => acc
    end) lines None.

(** The value regex at a fixed start position, without backtracking: the
    classes of the pattern are disjoint, so every quantifier takes the
    whole run. *)
Definition value_at_det (s : jsstr) : option jsstr :=
  let s1 := drop_while is_ws s in
  let v := take_while is_value_char s1 in
  let s2 := drop_while is_value_char s1 in
  let s3 := drop_while is_ws s2 in
  match take_while is_ws s, v with
  | [], _ | _, [] => None
  | _, _ =>
      match s2 with
      | [] => Some v
      | _ :: _ =>
          match take_while is_ws s2, take_while is_digit s3, drop_while is_digit s3 with
          | _ :: _, _ :: _, [] => Some v
          | _, _, _ => None
          end
      end
  end.

(* ===================================================================== *)
(** ** Configuration values *)
(* ===================================================================== *)

(** A JS value of type [string | undefined]: [None] is [undefined]. *)
Abbreviation optstr := (option jsstr).

(** [process.env] *)
Abbreviation ProcessEnv := (gmap jsstr jsstr).

(** Truthiness of a [string | undefined]: the empty string is falsy. *)
Definition truthy_str (a : optstr) : bool :=
  match a with
  | Some (_ :: _) => true
  | _ => false
  end.

(** [a || b] on [string | undefined] operands. *)
Definition js_or (a b : optstr) : optstr := if truthy_str a then a else b.

(** [a || 'literal'] : the chain always ends in a string. *)
Definition js_or_lit (a : optstr) (d : jsstr) : jsstr :=
  match js_or a (Some d) with
  | Some v => v
  | None => d
  end.

(** [a ?? d] on [number | undefined]. *)
Definition nullish {A} (a : option A) (d : A) : A :=
  match a with
  | Some v => v
  | None => d
  end.

(* ===================================================================== *)
(** ** [MetricsPusher] *)
(* ===================================================================== *)

(** [MetricsConfig], without the logger: the pusher is taken to use a
    logger whose methods return normally, as [consoleLogger] does.  The
    interval is a whole number of seconds. *)
Record MetricsConfig := {
  mc_serviceName : optstr;
  mc_alloyUrl : optstr;
  mc_pushInterval : option Z;
  mc_environment : optstr;
}.

(** The fields of a [MetricsPusher] instance. *)
Record MetricsPusher := {
  intervalId : option nat;
  pushIntervalMs : Z;
  alloyUrl : jsstr;
  serviceName : jsstr;
  environment : jsstr;
  isRunning : bool;
}.

(** What the pusher does that can be observed: log lines and calls of the
    remote-write client [pushMetrics(metrics, {url, labels})]. *)
Inductive event :=
  | LogInfo (msg : string)
  | LogWarn (msg : string)
  | LogError (msg : string)
  | LogDebug (msg : string)
  | RemoteWrite (url : jsstr) (service env : jsstr) (samples : gmap jsstr jsnum).

(** The two failures of the [try] block: [getRegistry()] or
    [registry.metrics()] failing, and the remote-write call rejecting. *)
Inductive push_failure := RegistryFailure | RemoteFailure.

(** How a call returns to its caller: normally, or by throwing. *)
Inductive completion := Normal | Throws (msg : string).

(** [new MetricsPusher(config)], reading [process.env]. *)
Definition MetricsPusher_new (config : MetricsConfig) (env : ProcessEnv)
    : completion * option MetricsPusher :=
  if negb (truthy_str (mc_serviceName config)) then
    (Throws "MetricsConfig.serviceName is required", None)
  else
    (Normal, Some {|
      intervalId := None;
      pushIntervalMs := (nullish (mc_pushInterval config) 15 * 1000)%Z;
      alloyUrl := js_or_lit (js_or (mc_alloyUrl config) (env !! js "ALLOY_PUSH_URL")) [];
      serviceName := js_or_lit (mc_serviceName config) [];
      environment := js_or_lit (js_or (mc_environment config) (env !! js "NODE_ENV")) (js "development");
      isRunning := false;
    |}).

(** The [try] block of [pushMetrics]: [registry] is what
    [registry.metrics()] resolves to ([None]: the registry fails) and
    [remote_ok] whether the remote-write call resolves. *)
Definition push_try (p : MetricsPusher) (registry : option jsstr) (remote_ok : bool)
    : list event * option push_failure :=
  match registry with
  | None => ([], Some RegistryFailure)
  | Some metricsString =>
      let metrics := parsePrometheusMetrics metricsString in
      if bool_decide (metrics = ∅) then ([LogWarn "No metrics to push"], None)
      else
        let call := RemoteWrite (alloyUrl p) (serviceName p) (environment p) metrics in
        if remote_ok then ([call; LogDebug "Pushed metrics successfully"], None)
        else ([call], Some RemoteFailure)
  end.

(** [pushMetrics()]: the guard on the endpoint, then the [try] block and
    its [catch], which logs and does not rethrow. *)
Definition pushMetrics (p : MetricsPusher) (registry : option jsstr) (remote_ok : bool)
    : list event * completion :=
  if bool_decide (alloyUrl p = []) then ([], Normal)
  else
    match push_try p registry remote_ok with
    | (evs, None) => (evs, Normal)
    | (evs, Some _) => (evs ++ [LogError "Failed to push metrics"], Normal)
    end.

(** [isActive()] *)
Definition isActive (p : MetricsPusher) : bool := isRunning p.

(** *** The event loop the pusher runs in *)

(** Node's [setInterval] delay: a delay outside [1 .. 2^31-1] ms becomes
    1 ms. *)
Definition TIMEOUT_MAX : Z := 2147483647.
Definition node_delay (after : Z) : Z :=
  if bool_decide (1 <= after <= TIMEOUT_MAX)%Z then after else 1.

(** The pusher together with the process's armed intervals (identifier and
    period in ms) and the events so far. *)
Record World := {
  pusher : MetricsPusher;
  timers : list (nat * Z);
  next_timer : nat;
  trace : list event;
}.

Definition set_pusher (w : World) (p : MetricsPusher) : World :=
  {| pusher := p; timers := timers w; next_timer := next_timer w; trace := trace w |}.

Definition emit (w : World) (evs : list event) : World :=
  {| pusher := pusher w; timers := timers w; next_timer := next_timer w; trace := trace w ++ evs |}.

Definition with_running (p : MetricsPusher) (b : bool) : MetricsPusher :=
  {| intervalId := intervalId p; pushIntervalMs := pushIntervalMs p; alloyUrl := alloyUrl p;
     serviceName := serviceName p; environment := environment p; isRunning := b |}.

Definition with_interval (p : MetricsPusher) (i : option nat) : MetricsPusher :=
  {| intervalId := i; pushIntervalMs := pushIntervalMs p; alloyUrl := alloyUrl p;
     serviceName := serviceName p; environment := environment p; isRunning := isRunning p |}.

(** [setInterval(cb, delay)]: arms a fresh interval and returns its id. *)
Definition setInterval (w : World) (delay : Z) : World * nat :=
  ({| pusher := pusher w; timers := timers w ++ [(next_timer w, node_delay delay)];
      next_timer := S (next_timer w); trace := trace w |}, next_timer w).

(** [clearInterval(id)] *)
Definition clearInterval (w : World) (id : nat) : World :=
  {| pusher := pusher w; timers := filter (fun t => fst t <> id) (timers w);
     next_timer := next_timer w; trace := trace w |}.

(** [start()] up to its first suspension, [await this.pushMetrics()].  The
    boolean says whether the call is suspended there (it has not returned
    early). *)
Definition start_sync (w : World) : World * bool :=
  let p := pusher w in
  if isRunning p then (emit w [LogWarn "Metrics pusher already running"], false)
  else if bool_decide (alloyUrl p = []) then
    (emit w [LogWarn "Alloy URL not configured - metrics push disabled"], false)
  else
    (set_pusher (emit w [LogInfo "Starting metrics pusher"]) (with_running p true), true).

(** The rest of [start()] once the immediate push has completed: the push's
    events, [this.intervalId = setInterval(...)] and the last log line. *)
Definition start_resume (w : World) (registry : option jsstr) (remote_ok : bool) : World :=
  let w1 := emit w (fst (pushMetrics (pusher w) registry remote_ok)) in
  let '(w2, id) := setInterval w1 (pushIntervalMs (pusher w1)) in
  emit (set_pusher w2 (with_interval (pusher w2) (Some id)))
    [LogInfo "Metrics pusher started successfully"].

(** [start()] run to completion without anything else running meanwhile. *)
Definition start (w : World) (registry : option jsstr) (remote_ok : bool) : World :=
  match start_sync w with
  | (w1, true) => start_resume w1 registry remote_ok
  | (w1, false) => w1
  end.

(** [stop()] *)
Definition stop (w : World) : World :=
  let p := pusher w in
  if negb (isRunning p) then w
  else
    let w1 := match intervalId p with
              | Some id => set_pusher (clearInterval w id) (with_interval p None)
              | None => w
              end in
    emit (set_pusher w1 (with_running (pusher w1) false)) [LogInfo "Metrics pusher stopped"].

(** One firing of the interval [id]: the callback pushes if the interval is
    still armed. *)
Definition tick (w : World) (id : nat) (registry : option jsstr) (remote_ok : bool) : World :=
  if bool_decide (id ∈ map fst (timers w)) then
    emit w (fst (pushMetrics (pusher w) registry remote_ok))
  else w.

(** A freshly constructed pusher with an endpoint and the default
    interval, in a process with no interval armed. *)
Definition fresh_world : World := {|
  pusher := {| intervalId := None; pushIntervalMs := 15000; alloyUrl := js "http://alloy:9091";
               serviceName := js "svc"; environment := js "development"; isRunning := false |};
  timers := [];
  next_timer := 0;
  trace := [];
|}.

(* ===================================================================== *)
(** ** [KafkaConsumer] *)
(* ===================================================================== *)

(** [ConsumerStats]; [lastProcessedAt] is the time read by [new Date()]. *)
Record ConsumerStats := {
  processedCount : nat;
  errorCount : nat;
  lastProcessedAt : option Z;
  stats_isRunning : bool;
}.

(** How the caller's handler settles on a message. *)
Inductive handler_outcome := Resolves | Rejects (err : string).

(** A delivered message: its offset, how the handler settles on it and the
    clock when it does. *)
Record kmessage := {
  km_offset : Z;
  km_outcome : handler_outcome;
  km_now : Z;
}.

(** The [eachMessage] callback given to [consumer.run]: the stats after it,
    the log lines it writes and how it settles. *)
Definition eachMessage (stats : ConsumerStats) (m : kmessage)
    : ConsumerStats * list string * completion :=
  match km_outcome m with
  | Resolves =>
      ({| processedCount := S (processedCount stats); errorCount := errorCount stats;
          lastProcessedAt := Some (km_now m); stats_isRunning := stats_isRunning stats |},
       [], Normal)
  | Rejects _ =>
      ({| processedCount := processedCount stats; errorCount := S (errorCount stats);
          lastProcessedAt := Some (km_now m); stats_isRunning := stats_isRunning stats |},
       ["Error processing message"%string], Normal)
  end.

(** The message loop of the client library, on one partition: it calls
    [eachMessage] on each message in turn and stops delivering when a call
    throws.  It returns the final stats and the messages delivered. *)
Fixpoint run_messages (stats : ConsumerStats) (ms : list kmessage)
    : ConsumerStats * list kmessage :=
  match ms with
  | [] => (stats, [])
  | m :: ms' =>
      match eachMessage stats m with
      | (stats', _, Normal) =>
          let '(stats'', delivered) := run_messages stats' ms' in (stats'', m :: delivered)
      | (stats', _, Throws _) => (stats', [m])
      end
  end.

(* ===================================================================== *)
(** ** Constructors and factories *)
(* ===================================================================== *)

(** [parseInt(s, 10)]: leading white space, an optional sign and the
    longest run of decimal digits; [None] is [NaN]. *)
Definition digits_value (ds : jsstr) : Z :=
  fold_left (fun acc c => acc * 10 + (Z.of_nat (nat_of_ascii c) - 48))%Z ds 0%Z.

Definition parseInt10 (s : jsstr) : option Z :=
  let '(neg, r) := read_sign (drop_while is_ws s) in
  match take_while is_digit r with
  | [] => None
  | ds => Some (if neg then - digits_value ds else digits_value ds)%Z
  end.

(** The pool settings of the [pg] client, [port] [None] being [NaN]. *)
Record PoolConfig := {
  pool_host : jsstr;
  pool_port : option Z;
  pool_database : jsstr;
  pool_user : jsstr;
  pool_password : jsstr;
}.

(** What a construction does besides returning its object.  None of these
    opens a connection: the [kafkajs], [pg] and [redis] objects connect only
    when their [connect] is called. *)
Inductive ctor_effect :=
  | NewKafka
  | NewKafkaConsumer
  | NewPool (pc : PoolConfig)
  | PoolListeners
  | ConsoleLine (msg : string)
  | LoggerLine (msg : string)
  | NewOpenApiValidator.

(** *** [KafkaConsumer] *)

Record KafkaConfig := {
  kc_serviceName : optstr;
  kc_brokers : option (list jsstr);
  kc_username : optstr;
  kc_password : optstr;
  kc_groupId : optstr;
}.

Definition KafkaConsumer_new (config : KafkaConfig) : completion * list ctor_effect :=
  if negb (truthy_str (kc_serviceName config)) then
    (Throws "KafkaConfig.serviceName is required", [])
  else if match kc_brokers config with Some (_ :: _) => false | _ => true end then
    (Throws "KafkaConfig.brokers is required", [])
  else if negb (truthy_str (kc_username config)) then
    (Throws "KafkaConfig.username is required", [])
  else if negb (truthy_str (kc_password config)) then
    (Throws "KafkaConfig.password is required", [])
  else if negb (truthy_str (kc_groupId config)) then
    (Throws "KafkaConfig.groupId is required", [])
  else (Normal, [NewKafka; NewKafkaConsumer]).

(** *** [PostgresClient] *)

Record PostgresConfig := {
  pc_serviceName : optstr;
  pc_schemaName : optstr;
  pc_host : optstr;
  pc_port : option Z;
  pc_database : optstr;
  pc_user : optstr;
  pc_password : optstr;
}.

(** [config.port || n]: the number [0] is falsy. *)
Definition port_or (a : option Z) (d : option Z) : option Z :=
  match a with
  | Some p => if bool_decide (p = 0%Z) then d else Some p
  | None => d
  end.

(** The [poolConfig] object literal of the constructor. *)
Definition poolConfig (config : PostgresConfig) (env : ProcessEnv) : PoolConfig := {|
  pool_host := js_or_lit (js_or (pc_host config) (env !! js "PGHOST")) (js "localhost");
  pool_port := port_or (pc_port config)
                 (parseInt10 (js_or_lit (env !! js "PGPORT") (js "5432")));
  pool_database := js_or_lit (js_or (pc_database config) (env !! js "PGDATABASE")) (js "railrepay");
  pool_user := js_or_lit (js_or (pc_user config) (env !! js "PGUSER")) (js "postgres");
  pool_password := js_or_lit (js_or (pc_password config) (env !! js "PGPASSWORD")) (js "postgres");
|}.

Definition PostgresClient_new (config : PostgresConfig) (env : ProcessEnv)
    : completion * list ctor_effect :=
  if negb (truthy_str (pc_serviceName config)) then
    (Throws "PostgresConfig.serviceName is required", [])
  else if negb (truthy_str (pc_schemaName config)) then
    (Throws "PostgresConfig.schemaName is required", [])
  else (Normal, [NewPool (poolConfig config env); PoolListeners]).

(** *** [createLogger] *)

Record LoggerConfig := {
  lc_serviceName : optstr;
  lc_level : optstr;
  lc_environment : optstr;
}.

(** The settings the logger is built with. *)
Record LoggerSettings := {
  ls_level : jsstr;
  ls_environment : jsstr;
}.

(** A destructuring default [{ x = d } = config]: [d] is used only when
    [config.x] is [undefined]. *)
Definition destructure_default (a : optstr) (d : jsstr) : jsstr :=
  match a with
  | Some v => v
  | None => d
  end.

Definition createLogger (config : LoggerConfig) (env : ProcessEnv)
    : completion * option LoggerSettings :=
  let level := destructure_default (lc_level config)
                 (js_or_lit (env !! js "LOG_LEVEL") (js "info")) in
  let environment := destructure_default (lc_environment config)
                 (js_or_lit (js_or (env !! js "ENVIRONMENT") (env !! js "NODE_ENV"))
                    (js "development")) in
  if negb (truthy_str (lc_serviceName config)) then
    (Throws "LoggerConfig.serviceName is required", None)
  else (Normal, Some {| ls_level := level; ls_environment := environment |}).

(** *** [createOpenAPIMiddleware] *)

(** [OpenAPIConfig]: it has no [serviceName]. *)
Record OpenAPIConfig := {
  oc_schemaPath : optstr;
}.

Definition createOpenAPIMiddleware (config : OpenAPIConfig) : completion * list ctor_effect :=
  if negb (truthy_str (oc_schemaPath config)) then
    (Throws "OpenAPIConfig.schemaPath is required", [])
  else (Normal, [LoggerLine "Initializing OpenAPI validator"; NewOpenApiValidator]).

(** *** [RedisCache] and [createRedisCache] *)

Record RedisConfig := {
  rc_serviceName : optstr;
  rc_redisUrl : optstr;
}.

(** The cache object a factory call returns. *)
Inductive cache_impl := NoOpCacheImpl | RedisCacheImpl (redisUrl : jsstr).

(** [new RedisCache(config)]: the connection URL it keeps. *)
Definition RedisCache_new (config : RedisConfig) (env : ProcessEnv)
    : completion * option cache_impl :=
  if negb (truthy_str (rc_serviceName config)) then
    (Throws "RedisConfig.serviceName is required", None)
  else
    (Normal, Some (RedisCacheImpl
       (js_or_lit (js_or (rc_redisUrl config) (env !! js "REDIS_URL")) (js "redis://localhost:6379")))).

Definition createRedisCache (config : RedisConfig) (env : ProcessEnv)
    : completion * list ctor_effect * option cache_impl :=
  let cacheEnabled := bool_decide (env !! js "REDIS_CACHE_ENABLED" = Some (js "true")) in
  let redisUrl := js_or (rc_redisUrl config) (env !! js "REDIS_URL") in
  if negb cacheEnabled then
    (Normal, [ConsoleLine "Redis caching disabled (REDIS_CACHE_ENABLED=false)"], Some NoOpCacheImpl)
  else if negb (truthy_str redisUrl) then
    (Normal, [ConsoleLine "REDIS_URL not set - caching disabled"], Some NoOpCacheImpl)
  else
    let '(c, r) := RedisCache_new {| rc_serviceName := rc_serviceName config;
                                     rc_redisUrl := redisUrl |} env in
    (c, [], r).

(* ===================================================================== *)
(** ** [createOpenAPIErrorHandler] *)
(* ===================================================================== *)










(* ===================================================================== *)
(** ** [PostgresClient.query] and [queryOne] *)
(* ===================================================================== *)

(** How a promise settles. *)
Inductive settled (A : Type) := Fulfilled (v : A) | Rejected (reason : string).
Arguments Fulfilled {A} v.
Arguments Rejected {A} reason.

Section PostgresQueries.
(** The row objects [pg] returns.  Objects are truthy. *)
Context {Row : Type}.

(** [query(sql, params)]: [pool] is how [this.pool.query] settles; the
    rows are returned, a failure is logged and rethrown. *)
Definition query (pool : settled (list Row)) : list string * settled (list Row) :=
  match pool with
  | Fulfilled rows => (["Executed query"%string], Fulfilled rows)
  | Rejected e => (["Database query error"%string], Rejected e)
  end.

(** [v || null] on a row or [undefined]: a row object is truthy, so it is
    kept; [undefined] becomes [null], here [None]. *)
Definition or_null (v : option Row) : option Row :=
  match v with
  | Some r => Some r
  | None => None
  end.

(** [queryOne(sql, params)]: [rows[0] || null]. *)
Definition queryOne (pool : settled (list Row)) : list string * settled (option Row) :=
  match query pool with
  | (logs, Fulfilled rows) => (logs, Fulfilled (or_null (head rows)))
  | (logs, Rejected e) => (logs, Rejected e)
  end.
End PostgresQueries.

(* ===================================================================== *)
(** ** [CacheClient] and [NoOpCache] *)
(* ===================================================================== *)

(** A call of a [CacheClient] method; values are taken as strings. *)
Inductive cache_op :=
  | OpConnect
  | OpDisconnect
  | OpGet (key : jsstr)
  | OpSet (key value : jsstr) (ttl : option Z)
  | OpDelete (key : jsstr)
  | OpExists (key : jsstr)
  | OpIsConnected
  | OpHealthCheck.

(** What a method returns: [undefined], [null], a value or a boolean. *)
Inductive cache_resp := RUndefined | RNull | RValue (v : jsstr) | RBool (b : bool).

(** The [CacheClient] interface over an implementation's state: each call
    settles with a result or by throwing. *)
Class CacheClient (S : Type) := {
  cache_call : S -> cache_op -> S * settled cache_resp;
}.

(** [NoOpCache]: it has no fields. *)
Record NoOpCache : Type := MkNoOpCache {}.

#[export] Instance NoOpCache_client : CacheClient NoOpCache := {
  cache_call self op :=
    match op with
    | OpConnect => (self, Fulfilled RUndefined)
    | OpDisconnect => (self, Fulfilled RUndefined)
    | OpGet _ => (self, Fulfilled RNull)
    | OpSet _ _ _ => (self, Fulfilled RUndefined)
    | OpDelete _ => (self, Fulfilled RUndefined)
    | OpExists _ => (self, Fulfilled (RBool false))
    | OpIsConnected => (self, Fulfilled (RBool false))
    | OpHealthCheck => (self, Fulfilled (RBool false))
    end;
}.

(** A sequence of calls on one instance, with their results in order. *)
Fixpoint run_cache {St : Type} `{CacheClient St} (self : St) (ops : list cache_op)
    : St * list (settled cache_resp) :=
  match ops with
  | [] => (self, [])
  | op :: ops' =>
      let '(self', r) := cache_call self op in
      let '(self'', rs) := run_cache self' ops' in
      (self'', r :: rs)
  end.

(** The answers the contract gives a cache that is always empty and
    disconnected: [get] a miss ([null]), [exists], [isConnected] and
    [healthCheck] false, the other methods nothing. *)
Definition always_miss (op : cache_op) : cache_resp :=
  match op with
  | OpGet _ => RNull
  | OpExists _ | OpIsConnected | OpHealthCheck => RBool false
  | _ => RUndefined
  end.

(* ===================================================================== *)
(** ** Configuration precedence, as the contract states it *)
(* ===================================================================== *)

(** The explicit value if supplied, else the environment variable if set,
    else the literal default. *)
Definition precedence (explicit env_value : optstr) (default_value : jsstr) : jsstr :=
  match explicit with
  | Some v => v
  | None =>
      match env_value with
      | Some v => v
      | None => default_value
      end
  end.

(** A string value with the empty string counted as absent. *)
Definition truthy_part (a : optstr) : optstr := if truthy_str a then a else None.

(** A port with [0] counted as absent. *)
Definition nonzero_part (a : option Z) : option Z :=
  match a with
  | Some p => if bool_decide (p = 0%Z) then None else Some p
  | None => None
  end.

(* ===================================================================== *)
(** ** The shared registry *)
(* ===================================================================== *)

(** The module variable [sharedRegistry], registries being told apart by
    the number of the [new Registry()] that made them. *)
Record RegistryState := {
  sharedRegistry : option nat;
  registries_made : nat;
}.

(** [getRegistry()] *)
Definition getRegistry (st : RegistryState) : RegistryState * nat :=
  match sharedRegistry st with
  | Some r => (st, r)
  | None => ({| sharedRegistry := Some (registries_made st);
                registries_made := S (registries_made st) |}, registries_made st)
  end.

(** [resetRegistry()] *)
Definition resetRegistry (st : RegistryState) : RegistryState :=
  {| sharedRegistry := None; registries_made := registries_made st |}.

(** A registry state is well formed when the shared registry, if any, was
    made by an earlier [new Registry()]. *)
Definition registry_wf (st : RegistryState) : Prop :=
  match sharedRegistry st with
  | Some r => r < registries_made st
  | None => True
  end.

(* ===================================================================== *)
(** ** The [KafkaConsumer] lifecycle *)
(* ===================================================================== *)

(** The mutable fields of a [KafkaConsumer]. *)
Record KafkaConsumerState := {
  consumer_isRunning : bool;
  consumer_stats : ConsumerStats;
}.

(** The state the constructor leaves. *)
Definition kafka_initial : KafkaConsumerState := {|
  consumer_isRunning := false;
  consumer_stats := {| processedCount := 0; errorCount := 0; lastProcessedAt := None;
                       stats_isRunning := false |};
|}.

(** The calls on the [kafkajs] consumer and the log lines. *)
Inductive kafka_effect :=
  | CallConnect | CallSubscribe | CallRun | CallDisconnect
  | KLogInfo (msg : string)
  | KLogError (msg : string).

(** A call on the wrapper, with how the [kafkajs] calls it makes settle;
    [KMessage] is the loop's call of [eachMessage]. *)
Inductive kafka_op :=
  | KConnect (connect : settled unit)
  | KSubscribe (subscribe run : settled unit)
  | KDisconnect (disconnect : settled unit)
  | KMessage (m : kmessage).

Definition set_running (st : KafkaConsumerState) (b : bool) : KafkaConsumerState := {|
  consumer_isRunning := b;
  consumer_stats := {| processedCount := processedCount (consumer_stats st);
                       errorCount := errorCount (consumer_stats st);
                       lastProcessedAt := lastProcessedAt (consumer_stats st);
                       stats_isRunning := b |};
|}.

(** [connect()] *)
Definition kafka_connect (st : KafkaConsumerState) (r : settled unit)
    : KafkaConsumerState * list kafka_effect * completion :=
  match r with
  | Fulfilled _ =>
      (st, [KLogInfo "Connecting to Kafka..."; CallConnect;
            KLogInfo "Connected to Kafka successfully"], Normal)
  | Rejected e =>
      (st, [KLogInfo "Connecting to Kafka..."; CallConnect;
            KLogError "Failed to connect to Kafka"], Throws e)
  end.

(** [subscribe(topic, handler)] *)
Definition kafka_subscribe (st : KafkaConsumerState) (rs rr : settled unit)
    : KafkaConsumerState * list kafka_effect * completion :=
  match rs with
  | Rejected e => (st, [CallSubscribe; KLogError "Failed to subscribe to topic"], Throws e)
  | Fulfilled _ =>
      match rr with
      | Rejected e =>
          (st, [CallSubscribe; KLogInfo "Subscribed to topic"; CallRun;
                KLogError "Failed to subscribe to topic"], Throws e)
      | Fulfilled _ =>
          (set_running st true,
           [CallSubscribe; KLogInfo "Subscribed to topic"; CallRun;
            KLogInfo "Consumer started successfully"], Normal)
      end
  end.

(** [disconnect()] *)
Definition kafka_disconnect (st : KafkaConsumerState) (r : settled unit)
    : KafkaConsumerState * list kafka_effect * completion :=
  if negb (consumer_isRunning st) then
    (st, [KLogInfo "Consumer not running, nothing to disconnect"], Normal)
  else
    match r with
    | Fulfilled _ =>
        (set_running st false,
         [KLogInfo "Disconnecting from Kafka..."; CallDisconnect;
          KLogInfo "Disconnected from Kafka successfully"], Normal)
    | Rejected _ =>
        (st, [KLogInfo "Disconnecting from Kafka..."; CallDisconnect;
              KLogError "Error disconnecting from Kafka"], Normal)
    end.

Definition kafka_step (st : KafkaConsumerState) (op : kafka_op)
    : KafkaConsumerState * list kafka_effect * completion :=
  match op with
  | KConnect r => kafka_connect st r
  | KSubscribe rs rr => kafka_subscribe st rs rr
  | KDisconnect r => kafka_disconnect st r
  | KMessage m =>
      let '(stats, logs, c) := eachMessage (consumer_stats st) m in
      ({| consumer_isRunning := consumer_isRunning st; consumer_stats := stats |},
       map KLogError logs, c)
  end.

(** A sequence of calls; each call's exception reaches only its caller. *)
Definition kafka_run (st : KafkaConsumerState) (ops : list kafka_op) : KafkaConsumerState :=
  fold_left (fun st op => fst (fst (kafka_step st op))) ops st.

(** [getStats()] returns a copy of the stats; [isConsumerRunning()]. *)
Definition getStats (st : KafkaConsumerState) : ConsumerStats := consumer_stats st.
Definition isConsumerRunning (st : KafkaConsumerState) : bool := consumer_isRunning st.

(** The number of message deliveries among [ops]. *)
Definition messages_in (ops : list kafka_op) : nat :=
  length (List.filter (fun op => match op with KMessage _ => true | _ => false end) ops).

(** The [subscribe()] and [disconnect()] calls among [ops]. *)
Definition lifecycle_ops (ops : list kafka_op) : list kafka_op :=
  List.filter (fun op => match op with KSubscribe _ _ | KDisconnect _ => true | _ => false end) ops.

(* ===================================================================== *)
(** ** The [RedisCache] methods *)
(* ===================================================================== *)

(** The Redis server the client talks to: its keys with their string
    values, whether it answers, and its clock in milliseconds.  Expiry is
    not modelled: no time passes between two calls. *)
Record RedisServer := {
  srv_store : gmap jsstr jsstr;
  srv_up : bool;
  srv_now : Z;
}.

Definition LLONG_MAX : Z := 9223372036854775807.

(** [SETEX key seconds value] accepts the expire time when it is positive
    and, in milliseconds added to the clock, stays below [LLONG_MAX]. *)
Definition setex_expire_ok (srv : RedisServer) (seconds : Z) : bool :=
  ((0 <? seconds) && (seconds <=? LLONG_MAX / 1000) &&
   (seconds * 1000 <=? LLONG_MAX - srv_now srv))%Z.

(** The commands [RedisCache] sends, as the server answers them; a server
    that does not answer makes each command reject. *)
Inductive redis_reply := ReplyNil | ReplyBulk (s : jsstr) | ReplyInt (n : Z) | ReplyOk.

Definition redis_down : string := "The client is closed".

Definition redis_get (srv : RedisServer) (k : jsstr) : settled redis_reply :=
  if srv_up srv then
    Fulfilled (match srv_store srv !! k with Some s => ReplyBulk s | None => ReplyNil end)
  else Rejected redis_down.

Definition redis_setex (srv : RedisServer) (k : jsstr) (seconds : Z) (v : jsstr)
    : RedisServer * settled redis_reply :=
  if negb (srv_up srv) then (srv, Rejected redis_down)
  else if setex_expire_ok srv seconds then
    ({| srv_store := <[k := v]> (srv_store srv); srv_up := true; srv_now := srv_now srv |},
     Fulfilled ReplyOk)
  else (srv, Rejected "ERR invalid expire time in 'setex' command").

Definition redis_del (srv : RedisServer) (k : jsstr) : RedisServer * settled redis_reply :=
  if srv_up srv then
    ({| srv_store := delete k (srv_store srv); srv_up := true; srv_now := srv_now srv |},
     Fulfilled (ReplyInt (if bool_decide (is_Some (srv_store srv !! k)) then 1 else 0)%Z))
  else (srv, Rejected redis_down).

Definition redis_exists (srv : RedisServer) (k : jsstr) : settled redis_reply :=
  if srv_up srv then
    Fulfilled (ReplyInt (if bool_decide (is_Some (srv_store srv !! k)) then 1 else 0)%Z)
  else Rejected redis_down.

Definition redis_ping (srv : RedisServer) : settled redis_reply :=
  if srv_up srv then Fulfilled (ReplyBulk (js "PONG")) else Rejected redis_down.

(** [JSON.stringify] and [JSON.parse] on the cached values; [json_parse]
    gives [None] where [JSON.parse] throws. *)
Record JsonCodec := {
  json_stringify : jsstr -> jsstr;
  json_parse : jsstr -> option jsstr;
}.

(** The options of [RedisConfig] the methods read besides [serviceName]
    and [redisUrl]. *)
Record RedisOptions := {
  ro_defaultTTL : option Z;
  ro_keyPrefix : option jsstr;
}.

(** A [RedisCache]: [client !== null], [connected], the resolved
    [redisUrl], [defaultTTL] and [keyPrefix], the log lines written so far
    and the server. *)
Record RedisCacheState := {
  rcs_client : bool;
  rcs_connected : bool;
  rcs_redisUrl : jsstr;
  rcs_defaultTTL : Z;
  rcs_keyPrefix : jsstr;
  rcs_logs : list event;
  rcs_server : RedisServer;
}.

(** [new RedisCache(config)]: the [serviceName] check and the URL of
    [RedisCache_new], then [defaultTTL ?? 3600] and [keyPrefix ?? 'rr:']. *)
Definition RedisCache_init (config : RedisConfig) (opts : RedisOptions) (env : ProcessEnv)
    (srv : RedisServer) : completion * option RedisCacheState :=
  match RedisCache_new config env with
  | (Normal, Some (RedisCacheImpl url)) =>
      (Normal, Some {| rcs_client := false; rcs_connected := false; rcs_redisUrl := url;
                       rcs_defaultTTL := nullish (ro_defaultTTL opts) 3600%Z;
                       rcs_keyPrefix := nullish (ro_keyPrefix opts) (js "rr:");
                       rcs_logs := []; rcs_server := srv |})
  | (c, _) => (c, None)
  end.

(** How the promise a method returns ends up: settled, or pending for
    good. *)
Inductive call_outcome (A : Type) := Settled (r : settled A) | Pending.
Arguments Settled {A} r.
Arguments Pending {A}.

Section RedisCacheMethods.
Variable codec : JsonCodec.
(** Whether [createClient({ url })] accepts a URL: [new URL(url)] parses it
    and its protocol is [redis:] or [rediss:]; otherwise it throws a
    [TypeError]. *)
Variable createClient_accepts : jsstr -> bool.

Definition rcs_log (st : RedisCacheState) (ev : event) : RedisCacheState := {|
  rcs_client := rcs_client st; rcs_connected := rcs_connected st;
  rcs_redisUrl := rcs_redisUrl st; rcs_defaultTTL := rcs_defaultTTL st; rcs_keyPrefix := rcs_keyPrefix st;
  rcs_logs := rcs_logs st ++ [ev]; rcs_server := rcs_server st |}.

Definition rcs_with (st : RedisCacheState) (client connected : bool) (srv : RedisServer)
    : RedisCacheState := {|
  rcs_client := client; rcs_connected := connected;
  rcs_redisUrl := rcs_redisUrl st; rcs_defaultTTL := rcs_defaultTTL st; rcs_keyPrefix := rcs_keyPrefix st;
  rcs_logs := rcs_logs st; rcs_server := srv |}.

(** [getKey(key)] *)
Definition getKey (st : RedisCacheState) (key : jsstr) : jsstr := rcs_keyPrefix st ++ key.

(** The guard [!this.client || !this.connected] of the data methods. *)
Definition rcs_ready (st : RedisCacheState) : bool := rcs_client st && rcs_connected st.

(** [connect()].  [createClient] throws on a URL it does not accept: the
    catch logs, drops the client and rethrows.  Otherwise the new client is
    kept; [connected] is set once it connects (its ['connect'] listener logs
    first).  Against a server that does not answer, node-redis retries for
    good: [client.connect()] never settles, so neither does [connect()],
    and each failed attempt reaches the ['error'] listener, which logs and
    clears [connected]; the state is given after the first attempt. *)
Definition redis_connect (st : RedisCacheState) : RedisCacheState * call_outcome cache_resp :=
  if negb (createClient_accepts (rcs_redisUrl st)) then
    (rcs_with (rcs_log st (LogError "Failed to connect to Redis")) false false (rcs_server st),
     Settled (Rejected "TypeError"))
  else if srv_up (rcs_server st) then
    (rcs_log (rcs_log (rcs_with st true true (rcs_server st))
               (LogDebug "Redis client connected")) (LogInfo "Redis cache connected"),
     Settled (Fulfilled RUndefined))
  else
    (rcs_log (rcs_with st true false (rcs_server st)) (LogError "Redis client error"),
     Pending).

(** [disconnect()]: [quit()] when there is a client; a failure is logged. *)
Definition redis_disconnect (st : RedisCacheState) : RedisCacheState * settled cache_resp :=
  if rcs_client st then
    if srv_up (rcs_server st) then
      (rcs_log (rcs_with st true false (rcs_server st)) (LogInfo "Redis cache disconnected"),
       Fulfilled RUndefined)
    else (rcs_log st (LogError "Error disconnecting from Redis"), Fulfilled RUndefined)
  else (st, Fulfilled RUndefined).

(** [get(key)] *)
Definition redis_cache_get (st : RedisCacheState) (key : jsstr)
    : RedisCacheState * settled cache_resp :=
  if negb (rcs_ready st) then (st, Fulfilled RNull)
  else
    match redis_get (rcs_server st) (getKey st key) with
    | Fulfilled (ReplyBulk s) =>
        match json_parse codec s with
        | Some v => (st, Fulfilled (RValue v))
        | None => (rcs_log st (LogError "Redis GET error"), Fulfilled RNull)
        end
    | Fulfilled _ => (st, Fulfilled RNull)
    | Rejected _ => (rcs_log st (LogError "Redis GET error"), Fulfilled RNull)
    end.

(** [set(key, value, ttl)]: [SETEX] with [ttl ?? defaultTTL]; a failure is
    logged, not thrown. *)
Definition redis_cache_set (st : RedisCacheState) (key value : jsstr) (ttl : option Z)
    : RedisCacheState * settled cache_resp :=
  if negb (rcs_ready st) then (st, Fulfilled RUndefined)
  else
    let effectiveTTL := nullish ttl (rcs_defaultTTL st) in
    match redis_setex (rcs_server st) (getKey st key) effectiveTTL (json_stringify codec value) with
    | (srv', Fulfilled _) =>
        (rcs_log (rcs_with st true true srv') (LogDebug "Cached value"), Fulfilled RUndefined)
    | (_, Rejected _) => (rcs_log st (LogError "Redis SET error"), Fulfilled RUndefined)
    end.

(** [delete(key)] *)
Definition redis_cache_delete (st : RedisCacheState) (key : jsstr)
    : RedisCacheState * settled cache_resp :=
  if negb (rcs_ready st) then (st, Fulfilled RUndefined)
  else
    match redis_del (rcs_server st) (getKey st key) with
    | (srv', Fulfilled _) =>
        (rcs_log (rcs_with st true true srv') (LogDebug "Deleted cache key"), Fulfilled RUndefined)
    | (_, Rejected _) => (rcs_log st (LogError "Redis DEL error"), Fulfilled RUndefined)
    end.

(** [exists(key)]: [result === 1]. *)
Definition redis_cache_exists (st : RedisCacheState) (key : jsstr)
    : RedisCacheState * settled cache_resp :=
  if negb (rcs_ready st) then (st, Fulfilled (RBool false))
  else
    match redis_exists (rcs_server st) (getKey st key) with
    | Fulfilled (ReplyInt n) => (st, Fulfilled (RBool (Z.eqb n 1%Z)))
    | Fulfilled _ => (st, Fulfilled (RBool false))
    | Rejected _ => (rcs_log st (LogError "Redis EXISTS error"), Fulfilled (RBool false))
    end.

(** [healthCheck()] *)
Definition redis_healthCheck (st : RedisCacheState) : RedisCacheState * settled cache_resp :=
  if negb (rcs_ready st) then (st, Fulfilled (RBool false))
  else
    match redis_ping (rcs_server st) with
    | Fulfilled _ => (st, Fulfilled (RBool true))
    | Rejected _ => (rcs_log st (LogError "Redis health check failed"), Fulfilled (RBool false))
    end.

(** A method that settles. *)
Definition settle {A} (p : RedisCacheState * settled A) : RedisCacheState * call_outcome A :=
  (fst p, Settled (snd p)).

Definition redis_cache_call (st : RedisCacheState) (op : cache_op)
    : RedisCacheState * call_outcome cache_resp :=
  match op with
  | OpConnect => redis_connect st
  | OpDisconnect => settle (redis_disconnect st)
  | OpGet k => settle (redis_cache_get st k)
  | OpSet k v ttl => settle (redis_cache_set st k v ttl)
  | OpDelete k => settle (redis_cache_delete st k)
  | OpExists k => settle (redis_cache_exists st k)
  | OpIsConnected => (st, Settled (Fulfilled (RBool (rcs_connected st))))
  | OpHealthCheck => settle (redis_healthCheck st)
  end.

(** A sequence of calls on one [RedisCache], each awaited before the next
    is made: a call that never settles holds back the rest. *)
Fixpoint redis_run (st : RedisCacheState) (ops : list cache_op)
    : RedisCacheState * list (call_outcome cache_resp) :=
  match ops with
  | [] => (st, [])
  | op :: ops' =>
      match redis_cache_call st op with
      | (st', Settled r) =>
          let '(st'', rs) := redis_run st' ops' in (st'', Settled r :: rs)
      | (st', Pending) => (st', [Pending])
      end
  end.

(** The Redis keys that calls of [set] with an explicit [ttl] write to. *)
Definition explicit_ttl_keys (keyPrefix : jsstr) (ops : list cache_op) : gset jsstr :=
  list_to_set (omap (fun op => match op with
                               | OpSet k _ (Some _) => Some (keyPrefix ++ k)
                               | _ => None
                               end) ops).
End RedisCacheMethods.

(* ===================================================================== *)
(** ** The [PostgresClient] lifecycle *)
(* ===================================================================== *)

(** The [pg] pool as the client sees it: whether [end()] has been called
    on it and whether the database answers. *)
Record PgPool := {
  pool_ended : bool;
  pool_db_up : bool;
}.

Section PostgresLifecycle.
Context {Row : Type}.

(** [pool.query(...)]: a pool on which [end()] was called refuses every
    query; otherwise the database answers with [rows] or is unreachable. *)
Definition pool_query (p : PgPool) (rows : list Row) : settled (list Row) :=
  if pool_ended p then Rejected "Cannot use a pool after calling end on the pool"
  else if pool_db_up p then Fulfilled rows
  else Rejected "connect ECONNREFUSED".

(** [pool.end()]: a second call rejects. *)
Definition pool_end (p : PgPool) : PgPool * settled unit :=
  if pool_ended p then (p, Rejected "Called end on pool more than once")
  else ({| pool_ended := true; pool_db_up := pool_db_up p |}, Fulfilled tt).

(** A [PostgresClient] after its constructor: its pool, [connected] and the
    log lines. *)
Record PgClientState := {
  pg_pool : PgPool;
  pg_connected : bool;
  pg_logs : list string;
}.

(** A call on the client, or the database going up or down. *)
Inductive pg_op :=
  | PgConnect
  | PgDisconnect
  | PgQuery (rows : list Row)
  | PgHealthCheck
  | PgIsConnected
  | PgDatabase (up : bool).

Inductive pg_resp := PUndefined | PBool (b : bool) | PRows (rows : list Row).

Definition pg_with (st : PgClientState) (p : PgPool) (c : bool) (logs : list string)
    : PgClientState := {| pg_pool := p; pg_connected := c; pg_logs := pg_logs st ++ logs |}.

(** [connect()]: [SELECT 1]; [connected] is set on success; a failure is
    logged and rethrown. *)
Definition pg_connect (st : PgClientState) : PgClientState * settled pg_resp :=
  match pool_query (pg_pool st) [] with
  | Fulfilled _ =>
      (pg_with st (pg_pool st) true ["PostgreSQL connection pool initialized"%string],
       Fulfilled PUndefined)
  | Rejected e =>
      (pg_with st (pg_pool st) (pg_connected st) ["Failed to connect to PostgreSQL"%string],
       Rejected e)
  end.

(** [disconnect()]: [await this.pool.end()], then [connected = false]; a
    rejection of [end()] propagates. *)
Definition pg_disconnect (st : PgClientState) : PgClientState * settled pg_resp :=
  match pool_end (pg_pool st) with
  | (p', Fulfilled _) =>
      (pg_with st p' false ["PostgreSQL connection pool closed"%string], Fulfilled PUndefined)
  | (p', Rejected e) => (pg_with st p' (pg_connected st) [], Rejected e)
  end.

(** [healthCheck()]: [SELECT 1]; a failure is logged and gives [false]. *)
Definition pg_healthCheck (st : PgClientState) : PgClientState * settled pg_resp :=
  match pool_query (pg_pool st) [] with
  | Fulfilled _ => (st, Fulfilled (PBool true))
  | Rejected _ =>
      (pg_with st (pg_pool st) (pg_connected st) ["Database health check failed"%string],
       Fulfilled (PBool false))
  end.

Definition pg_step (st : PgClientState) (op : pg_op) : PgClientState * settled pg_resp :=
  match op with
  | PgConnect => pg_connect st
  | PgDisconnect => pg_disconnect st
  | PgQuery rows =>
      let '(logs, r) := query (pool_query (pg_pool st) rows) in
      (pg_with st (pg_pool st) (pg_connected st) logs,
       match r with Fulfilled rs => Fulfilled (PRows rs) | Rejected e => Rejected e end)
  | PgHealthCheck => pg_healthCheck st
  | PgIsConnected => (st, Fulfilled (PBool (pg_connected st)))
  | PgDatabase up =>
      ({| pg_pool := {| pool_ended := pool_ended (pg_pool st); pool_db_up := up |};
          pg_connected := pg_connected st; pg_logs := pg_logs st |}, Fulfilled PUndefined)
  end.

Fixpoint pg_run (st : PgClientState) (ops : list pg_op)
    : PgClientState * list (settled pg_resp) :=
  match ops with
  | [] => (st, [])
  | op :: ops' =>
      let '(st', r) := pg_step st op in
      let '(st'', rs) := pg_run st' ops' in (st'', r :: rs)
  end.

(** What a call answers once the pool has ended: [connect], [disconnect]
    and [query] throw, [healthCheck] and [isConnected] give [false]. *)
Definition pg_after_end (op : pg_op) (r : settled pg_resp) : Prop :=
  match op with
  | PgConnect | PgDisconnect | PgQuery _ => exists e, r = Rejected e
  | PgHealthCheck | PgIsConnected => r = Fulfilled (PBool false)
  | PgDatabase _ => r = Fulfilled PUndefined
  end.
End PostgresLifecycle.

(* ===================================================================== *)
(** ** The transports of [createLogger] *)
(* ===================================================================== *)

(** The Loki options of [LoggerConfig]. *)
Record LokiOptions := {
  lo_lokiHost : optstr;
  lo_lokiEnabled : option bool;
  lo_lokiBasicAuth : optstr;
}.

(** A console transport at a level, or a Loki transport with its host,
    basic-auth credentials and [app] and [environment] labels. *)
Inductive transport :=
  | ConsoleTransport (level : jsstr)
  | LokiTransport (host : jsstr) (basicAuth : optstr) (app environment : jsstr).

(** [lokiEnabled = process.env.LOKI_ENABLED === 'true'] *)
Definition lokiEnabled_of (lo : LokiOptions) (env : ProcessEnv) : bool :=
  match lo_lokiEnabled lo with
  | Some b => b
  | None => bool_decide (env !! js "LOKI_ENABLED" = Some (js "true"))
  end.

(** The transports [createLogger] builds, and its console warnings;
    [loki_ok] tells whether [new LokiTransport(...)] returns rather than
    throws. *)
Definition createLogger_transports (config : LoggerConfig) (lo : LokiOptions) (env : ProcessEnv)
    (loki_ok : bool) : completion * list transport * list jsstr :=
  let lokiHost := destructure_default (lo_lokiHost lo)
                    (js_or_lit (env !! js "LOKI_HOST") (js "http://localhost:3100")) in
  let lokiEnabled := lokiEnabled_of lo env in
  let lokiBasicAuth := match lo_lokiBasicAuth lo with
                       | Some a => Some a
                       | None => env !! js "LOKI_BASIC_AUTH"
                       end in
  match createLogger config env with
  | (Normal, Some ls) =>
      let serviceName := nullish (lc_serviceName config) [] in
      let console := ConsoleTransport (ls_level ls) in
      if lokiEnabled && negb (bool_decide (env !! js "NODE_ENV" = Some (js "test"))) then
        if loki_ok then
          (Normal, [console; LokiTransport lokiHost lokiBasicAuth serviceName (ls_environment ls)], [])
        else
          (Normal, [console],
           [js "[" ++ serviceName ++ js "] Failed to initialize Loki transport, using console only"])
      else (Normal, [console], [])
  | (c, _) => (c, [], [])
  end.

(* ===================================================================== *)
(** ** The [ignorePaths] pattern of [createOpenAPIMiddleware] *)
(* ===================================================================== *)

(** An entry of [config.ignorePaths]: a string, or a [RegExp] given by its
    [source]. *)
Inductive ignore_path := IgnoreString (s : jsstr) | IgnoreRegExp (source : jsstr).

(** The characters of the class [/[.*+?^${}()|[\]\\]/]. *)
Definition is_regex_special (c : ascii) : bool :=
  existsb (Ascii.eqb c)
    ["."; "*"; "+"; "?"; "^"; "$"; "{"; "}"; "("; ")"; "|"; "["; "]"; "092"]%char.

(** [p.replace(/[.*+?^${}()|[\]\\]/g, '\\$&')] *)
Definition escape_regex (p : jsstr) : jsstr :=
  flat_map (fun c => if is_regex_special c then ["092"%char; c] else [c]) p.

Definition ignore_source (p : ignore_path) : jsstr :=
  match p with
  | IgnoreString s => escape_regex s
  | IgnoreRegExp src => src
  end.

(** [Array.prototype.join('|')] *)
Fixpoint join_bar (l : list jsstr) : jsstr :=
  match l with
  | [] => []
  | [x] => x
  | x :: xs => x ++ "|"%char :: join_bar xs
  end.

(** [options.ignorePaths]: the source of [new RegExp(`^(${ignorePattern})`)]
    when [config.ignorePaths || []] is not empty. *)
Definition openapi_ignorePaths (ignorePaths : option (list ignore_path)) : option jsstr :=
  let ps := match ignorePaths with Some l => l | None => [] end in
  if bool_decide (0 < length ps)%nat then
    Some ("^"%char :: "("%char :: join_bar (map ignore_source ps) ++ [")"%char])
  else None.

(** Reading the body of a pattern [^(...)] made of literal characters,
    identity escapes of syntax characters and top-level alternatives, up to
    its closing parenthesis: the literal strings of the alternatives.  Any
    other pattern is outside this reader ([None]). *)
Fixpoint read_alternatives (s : jsstr) (cur : jsstr) (acc : list jsstr) : option (list jsstr) :=
  match s with
  | [] => None
  | [c] => if Ascii.eqb c ")" then Some (acc ++ [cur]) else None
  | c :: (d :: rest) as tl =>
      if Ascii.eqb c "092" then
        if is_regex_special d then read_alternatives rest (cur ++ [d]) acc else None
      else if Ascii.eqb c "|" then read_alternatives tl [] (acc ++ [cur])
      else if is_regex_special c then None
      else read_alternatives tl (cur ++ [c]) acc
  end.

Definition read_anchored_pattern (pat : jsstr) : option (list jsstr) :=
  match pat with
  | c1 :: c2 :: body =>
      if Ascii.eqb c1 "^" && Ascii.eqb c2 "(" then read_alternatives body [] [] else None
  | _ => None
  end.

Fixpoint is_prefix (p s : jsstr) : bool :=
  match p, s with
  | [], _ => true
  | c :: p', d :: s' => Ascii.eqb c d && is_prefix p' s'
  | _ :: _, [] => false
  end.

(** [new RegExp(pat).test(path)] for a pattern [^(l1|...|ln)] of literal
    alternatives: the anchor fixes the match at the start of [path], and
    the alternation succeeds when one alternative does. *)
Definition regex_test (pat path : jsstr) : option bool :=
  match read_anchored_pattern pat with
  | Some alts => Some (existsb (fun a => is_prefix a path) alts)
  | None => None
  end.

(* ===================================================================== *)
(** ** The KafkaJS log creator of [KafkaConsumer] *)
(* ===================================================================== *)

(** [KafkaLogLevel]: NOTHING 0, ERROR 1, WARN 2, INFO 4, DEBUG 5. *)
Definition kafka_winston_level (level : Z) : string :=
  if Z.eqb level 1 then "error"
  else if Z.eqb level 2 then "warn"
  else if Z.eqb level 4 then "info"
  else "debug".

(** The metadata object [{ component, namespace, label, ...metadata }],
    where [metadata] is [log] without [message] and [timestamp]; the fields
    of [log] are taken as strings.  The spread comes last, so its fields
    win. *)
Definition kafka_log_meta (serviceName namespace label : jsstr) (log : gmap jsstr jsstr)
    : gmap jsstr jsstr :=
  delete (js "timestamp") (delete (js "message") log) ∪
  <[js "label" := label]> (<[js "namespace" := namespace]>
    (<[js "component" := serviceName ++ js "/KafkaJS"]> ∅)).

(** One call of the function the log creator returns: the logger method
    called, the message ([None] for [undefined]) and the metadata. *)
Definition kafka_log_entry (serviceName namespace : jsstr) (level : Z) (label : jsstr)
    (log : gmap jsstr jsstr) : string * option jsstr * gmap jsstr jsstr :=
  (kafka_winston_level level, log !! js "message",
   kafka_log_meta serviceName namespace label log).

(* ===================================================================== *)
(** ** Proofs *)
(* ===================================================================== *)

Example parse_requests_total :
  parsePrometheusMetrics (js "# HELP requests_total Requests
# TYPE requests_total counter
requests_total{method=GET} 42 1700000000
")
  !! js "requests_total" = Some (JFinite false (js "42") [] None).
Proof. vm_compute. reflexivity. Qed.

Example parse_last_write_wins :
  parsePrometheusMetrics (js "x{a=1} 1
x{a=2} 2.5e3") !! js "x" = Some (JFinite false (js "2") (js "5") (Some (false, js "3"))).
Proof. vm_compute. reflexivity. Qed.

Example value_re_timestamp : value_re (js "foo 1 2") = Some (js "1").
Proof. reflexivity. Qed.

Example value_re_bad_timestamp : value_re (js "foo 1 2.5") = Some (js "2.5").
Proof. reflexivity. Qed.

(** *** Runs of characters *)

Section Runs.
Variable p : ascii -> bool.

Lemma take_drop_while s : take_while p s ++ drop_while p s = s.
Proof. induction s as [|c s IH]; simpl; [done|]. destruct (p c); simpl; congruence. Qed.

Lemma forallb_take_while s : forallb p (take_while p s) = true.
Proof. induction s as [|c s IH]; simpl; [done|]. destruct (p c) eqn:E; simpl; rewrite ?E; done. Qed.

Lemma take_while_all s : forallb p s = true -> take_while p s = s.
Proof.
  induction s as [|c s IH]; simpl; [done|].
  intros H. apply andb_prop in H as [H1 H2]. rewrite H1, IH; done.
Qed.

Lemma drop_while_all s : forallb p s = true -> drop_while p s = [].
Proof.
  induction s as [|c s IH]; simpl; [done|].
  intros H. apply andb_prop in H as [H1 H2]. rewrite H1; auto.
Qed.

Lemma take_while_app l r :
  take_while p (l ++ r) = if forallb p l then l ++ take_while p r else take_while p l.
Proof.
  induction l as [|c l IH]; simpl; [done|].
  destruct (p c); simpl; [|done]. rewrite IH. destruct (forallb p l); done.
Qed.

Lemma drop_while_app l r :
  drop_while p (l ++ r) = if forallb p l then drop_while p r else drop_while p l ++ r.
Proof.
  induction l as [|c l IH]; simpl; [done|].
  destruct (p c); simpl; done.
Qed.

(** A run stops at a character outside the class. *)
Lemma drop_while_stop s c r : drop_while p s = c :: r -> p c = false.
Proof.
  induction s as [|c' s IH]; simpl; [done|].
  destruct (p c') eqn:E; [auto|]. intros [= -> _]. done.
Qed.

Lemma take_while_stop s : ~ (exists c r, s = c :: r /\ p c = true) -> take_while p s = [].
Proof. destruct s as [|c r]; simpl; [done|]. intros H. destruct (p c) eqn:E; [|done]. exfalso; eauto. Qed.

Lemma drop_while_nil s : drop_while p s = [] -> forallb p s = true.
Proof.
  induction s as [|c s IH]; simpl; [done|].
  destruct (p c) eqn:E; simpl; [auto|done].
Qed.

Lemma capture_take_while s : capture s (drop_while p s) = take_while p s.
Proof.
  unfold capture. rewrite <- (take_drop_while s) at 1 3.
  rewrite length_app, Nat.add_sub, take_app_length. done.
Qed.
End Runs.

Lemma forallb_rev (p : ascii -> bool) l : forallb p (rev l) = forallb p l.
Proof.
  induction l as [|c l IH]; simpl; [done|].
  rewrite forallb_app, IH. simpl. rewrite andb_true_r, andb_comm. done.
Qed.

(** The white-space class and the value class are disjoint; digits are
    value characters. *)
Lemma ws_not_value c : is_ws c = true -> is_value_char c = false.
Proof.
  destruct c as [[] [] [] [] [] [] [] []]; vm_compute; congruence.
Qed.

Lemma value_not_ws c : is_value_char c = true -> is_ws c = false.
Proof. destruct (is_ws c) eqn:E; [|done]. rewrite (ws_not_value c E). done. Qed.

Lemma digit_value c : is_digit c = true -> is_value_char c = true.
Proof. unfold is_value_char. intros ->. done. Qed.

Lemma ws_not_digit c : is_ws c = true -> is_digit c = false.
Proof. intros H. destruct (is_digit c) eqn:E; [|done]. apply digit_value in E. rewrite (ws_not_value c H) in E. done. Qed.

(** *** The value regex *)

Section StarLemmas.
Context {A : Type}.

(** When the continuation rejects any input that starts inside the run,
    a greedy star behaves as if it took the whole run. *)
Lemma star_reject (p : ascii -> bool) (k : jsstr -> option A) s :
  (forall c r, p c = true -> k (c :: r) = None) ->
  star p k s = k (drop_while p s).
Proof.
  intros Hk. induction s as [|c s IH]; simpl; [done|].
  destruct (p c) eqn:E; [|done]. rewrite IH.
  destruct (k (drop_while p s)); [done|]. auto.
Qed.

Lemma star_total (p : ascii -> bool) (k : jsstr -> option A) s :
  (forall r, k r <> None) -> star p k s = k (drop_while p s).
Proof.
  intros Hk. induction s as [|c s IH]; simpl; [done|].
  destruct (p c) eqn:E; [|done]. rewrite IH.
  destruct (k (drop_while p s)) eqn:Ek; [done|]. exfalso; exact (Hk _ Ek).
Qed.
End StarLemmas.

Lemma value_re_at_det s : value_re_at s = value_at_det s.
Proof.
  unfold value_re_at, value_at_det, plus at 1.
  destruct s as [|c s]; [done|]. simpl (take_while _ (c :: s)); simpl (drop_while _ (c :: s)).
  destruct (is_ws c) eqn:Ec; [|done].
  rewrite star_reject.
  2:{ intros c' r Hc'. unfold plus. rewrite (ws_not_value c' Hc'). done. }
  generalize (drop_while is_ws s) as s1. intros s1.
  unfold plus at 1. destruct s1 as [|c1 s1]; [done|].
  simpl (take_while _ (c1 :: s1)); simpl (drop_while _ (c1 :: s1)).
  destruct (is_value_char c1) eqn:E1; [|done].
  rewrite star_reject.
  2:{ intros c' r Hc'. unfold opt, plus. rewrite (value_not_ws c' Hc'). done. }
  replace (capture (c1 :: s1) (drop_while is_value_char s1))
    with (c1 :: take_while is_value_char s1).
  2:{ pose proof (capture_take_while is_value_char (c1 :: s1)) as H.
        cbn [take_while drop_while] in H. rewrite E1 in H. done. }
  generalize (c1 :: take_while is_value_char s1) as v. intros v.
  generalize (drop_while is_value_char s1) as s2. intros s2.
  unfold opt, plus. destruct s2 as [|c2 s2]; [done|].
  simpl (take_while _ (c2 :: s2)); simpl (drop_while _ (c2 :: s2)).
  destruct (is_ws c2) eqn:E2; [|done].
  rewrite star_reject.
  2:{ intros c' r Hc'. rewrite (ws_not_digit c' Hc'). done. }
  generalize (drop_while is_ws s2) as s3. intros s3.
  destruct s3 as [|c3 s3]; [done|].
  simpl (take_while _ (c3 :: s3)); simpl (drop_while _ (c3 :: s3)).
  destruct (is_digit c3) eqn:E3; [|done].
  rewrite star_reject by done.
  destruct (drop_while is_digit s3); done.
Qed.

(** *** The value regex against the trailing token *)

Lemma run_stop (p : ascii -> bool) l r :
  forallb p l = true -> (forall c r', r = c :: r' -> p c = false) ->
  take_while p (l ++ r) = l /\ drop_while p (l ++ r) = r.
Proof.
  intros Hl Hc. rewrite take_while_app, drop_while_app, Hl.
  destruct r as [|c r']; simpl; [rewrite app_nil_r; done|].
  rewrite (Hc c r' eq_refl), app_nil_r. done.
Qed.

Lemma run_all (p : ascii -> bool) l :
  forallb p l = true -> take_while p l = l /\ drop_while p l = [].
Proof. intros H. split; [apply take_while_all | apply drop_while_all]; done. Qed.

(** A non-empty run, reversed, still starts with a character of the run. *)
Lemma rev_run (p : ascii -> bool) l :
  l <> [] -> forallb p l = true ->
  exists c l', rev l = c :: l' /\ p c = true /\ forallb p (rev l) = true.
Proof.
  intros Hne Hl. destruct (rev l) as [|c l'] eqn:E.
  - apply (f_equal (@rev ascii)) in E. rewrite rev_involutive in E. subst l. done.
  - exists c, l'. rewrite <- E, forallb_rev. split; [done|]. split; [|done].
    pose proof (forallb_rev p l) as Hr. rewrite E, Hl in Hr. simpl in Hr.
    apply andb_prop in Hr as [? ?]. done.
Qed.

Lemma take_while_nonempty (p : ascii -> bool) s :
  take_while p s <> [] -> exists c r, s = c :: r /\ p c = true.
Proof.
  destruct s as [|c r]; simpl; [done|]. destruct (p c) eqn:E; [eauto|done].
Qed.

(** Side condition of [run_stop]: the rest starts with a character of
    another class, read off an equation [H : l = c :: _]. *)
Ltac stop_head H lem :=
  let c := fresh "c" in let r := fresh "r" in let E := fresh "E" in
  intros c r E; rewrite H in E; simpl in E; injection E as <- _; apply lem; done.

Lemma value_at_det_trailing line v :
  value_at_det line = Some v -> trailing_token_rev (rev line) = Some v.
Proof.
  unfold value_at_det. cbv zeta.
  pose proof (take_drop_while is_ws line) as Dw.
  pose proof (forallb_take_while is_ws line) as Fw.
  remember (take_while is_ws line) as w eqn:Hw. remember (drop_while is_ws line) as s1 eqn:Hs1.
  pose proof (take_drop_while is_value_char s1) as Dv.
  pose proof (forallb_take_while is_value_char s1) as Fv.
  remember (take_while is_value_char s1) as u eqn:Hu.
  remember (drop_while is_value_char s1) as s2 eqn:Hs2.
  clear Hw Hs1 Hu Hs2.
  assert (Hline : line = w ++ u ++ s2) by (rewrite Dv, Dw; done).
  clear Dv Dw. subst line.
  destruct w as [|w0 w']; [done|]. destruct u as [|u0 u']; [done|].
  destruct (rev_run is_ws (w0 :: w')) as (a & wr & Ha & Hwa & Fwr); [done|done|].
  destruct (rev_run is_value_char (u0 :: u')) as (b & ur & Hb & Hub & Fur); [done|done|].
  revert Ha Hb Fwr Fur. generalize (w0 :: w') (u0 :: u'). intros w u Ha Hb Fwr Fur.
  clear Fw Fv.
  unfold trailing_token_rev.
  destruct s2 as [|c2 s2'].
  - intros [= <-]. rewrite app_nil_r, rev_app_distr.
    destruct (run_stop is_value_char (rev u) (rev w)) as [-> ->];
      [done|stop_head Ha ws_not_value|].
    destruct (run_all is_ws (rev w)) as [-> ->]; [done|].
    rewrite Hb, Ha. cbn -[rev]. rewrite <- Hb, rev_involutive. done.
  - pose proof (take_drop_while is_ws (c2 :: s2')) as Dw2.
    pose proof (forallb_take_while is_ws (c2 :: s2')) as Fw2.
    remember (take_while is_ws (c2 :: s2')) as w2 eqn:Hw2.
    remember (drop_while is_ws (c2 :: s2')) as s3 eqn:Hs3.
    pose proof (take_drop_while is_digit s3) as Dd.
    pose proof (forallb_take_while is_digit s3) as Fd.
    remember (take_while is_digit s3) as d eqn:Hd.
    remember (drop_while is_digit s3) as s4 eqn:Hs4.
    clear Hw2 Hs3 Hd Hs4.
    destruct w2 as [|w20 w2']; [done|]. destruct d as [|d0 d']; [done|].
    destruct s4; [|done]. intros [= <-].
    rewrite <- Dw2, <- Dd, app_nil_r. clear Dw2 Dd.
    destruct (rev_run is_ws (w20 :: w2')) as (e & w2r & He & Hwe & Fw2r); [done|done|].
    destruct (rev_run is_digit (d0 :: d')) as (f & dr & Hf & Hdf & Fdr); [done|done|].
    revert He Hf Fw2r Fdr. generalize (w20 :: w2') (d0 :: d'). intros w2 d He Hf Fw2r Fdr.
    assert (Fdv : forallb is_value_char (rev d) = true).
    { apply forallb_forall. intros x Hx. apply digit_value.
      eapply forallb_forall; [exact Fdr|exact Hx]. }
    rewrite !rev_app_distr, <- !app_assoc.
    destruct (run_stop is_value_char (rev d) (rev w2 ++ rev u ++ rev w)) as [-> ->];
      [done|stop_head He ws_not_value|].
    destruct (run_stop is_ws (rev w2) (rev u ++ rev w)) as [-> ->];
      [done|stop_head Hb value_not_ws|].
    destruct (run_stop is_value_char (rev u) (rev w)) as [-> ->];
      [done|stop_head Ha ws_not_value|].
    destruct (run_all is_ws (rev w)) as [-> _]; [done|].
    rewrite Hf, Hb, Ha, He. cbn -[rev forallb]. rewrite <- Hf, Fdr, <- Hb, rev_involutive. done.
Qed.

Lemma nonempty_head (p : ascii -> bool) l :
  l <> [] -> forallb p l = true -> exists c l', l = c :: l' /\ p c = true.
Proof. destruct l as [|c l']; [done|]. simpl. intros _ H. apply andb_prop in H as [? ?]. eauto. Qed.

(** The converse of [value_at_det_trailing]'s decomposition: white space,
    a value token and an optional timestamp make a match. *)
Lemma value_at_det_shape w u t :
  w <> [] -> forallb is_ws w = true -> u <> [] -> forallb is_value_char u = true ->
  (t = [] \/ exists w2 d, t = w2 ++ d /\ w2 <> [] /\ forallb is_ws w2 = true
                        /\ d <> [] /\ forallb is_digit d = true) ->
  value_at_det (w ++ u ++ t) = Some u.
Proof.
  intros Hw Fw Hu Fu Ht.
  destruct (nonempty_head _ u Hu Fu) as (b & u' & Eu & Hb).
  unfold value_at_det. cbv zeta.
  destruct (run_stop is_ws w (u ++ t)) as [-> ->]; [done|stop_head Eu value_not_ws|].
  destruct Ht as [-> | (w2 & d & -> & Hw2 & Fw2 & Hd & Fd)].
  - rewrite app_nil_r. destruct (run_all is_value_char u) as [-> ->]; [done|].
    destruct w as [|x w']; [done|]. rewrite Eu. done.
  - destruct (nonempty_head _ w2 Hw2 Fw2) as (e & w2' & Ew2 & He).
    destruct (nonempty_head _ d Hd Fd) as (f & d' & Ed & Hf).
    destruct (run_stop is_value_char u (w2 ++ d)) as [-> ->]; [done|stop_head Ew2 ws_not_value|].
    destruct (run_stop is_ws w2 d) as [-> ->]; [done|stop_head Ed (fun c (H : is_digit c = true) => value_not_ws c (digit_value c H))|].
    destruct (run_all is_digit d) as [-> ->]; [done|].
    destruct w as [|x w']; [done|]. rewrite Eu, Ew2, Ed. done.
Qed.

Lemma drop_while_cons_stop (p : ascii -> bool) s :
  forallb p s = false -> exists c r, drop_while p s = c :: r /\ p c = false.
Proof.
  intros F. destruct (drop_while p s) as [|c r] eqn:E.
  - apply drop_while_nil in E. congruence.
  - exists c, r. split; [done|]. eapply drop_while_stop; eauto.
Qed.

Lemma rev_nonempty (l : jsstr) : l <> [] -> rev l <> [].
Proof. intros H E. apply H. apply (f_equal (@rev ascii)) in E. rewrite rev_involutive in E. done. Qed.

Lemma value_at_det_none_trailing R c :
  value_at_det (c :: rev R) = None ->
  trailing_token_rev (R ++ [c]) = trailing_token_rev R.
Proof.
  intros H. unfold trailing_token_rev.
  rewrite (take_while_app is_value_char R [c]), (drop_while_app is_value_char R [c]).
  destruct (forallb is_value_char R) eqn:F1.
  - rewrite (take_while_all _ R F1), (drop_while_all _ R F1).
    cbn [take_while drop_while]. destruct (is_value_char c) eqn:Ec.
    + cbn. destruct R; done.
    + cbn [take_while drop_while]. rewrite app_nil_r. destruct (is_ws c) eqn:Ew.
      * destruct R as [|x R']; [done|]. exfalso.
        pose proof (value_at_det_shape [c] (rev (x :: R')) [] ltac:(done)
          ltac:(simpl; rewrite Ew; done) (rev_nonempty (x :: R') ltac:(done))
          ltac:(rewrite forallb_rev; done) (or_introl eq_refl)) as Hs.
        rewrite app_nil_r in Hs. cbn [app] in Hs. congruence.
      * cbn. destruct R; done.
  - pose proof (take_drop_while is_value_char R) as DR.
    pose proof (forallb_take_while is_value_char R) as Ft1.
    remember (take_while is_value_char R) as t1 eqn:Ht1.
    remember (drop_while is_value_char R) as r1 eqn:Hr1.
    assert (Hr1ne : r1 <> []) by (intros E; subst r1; apply drop_while_nil in E; congruence).
    clear Ht1 Hr1.
    rewrite (take_while_app is_ws r1 [c]), (drop_while_app is_ws r1 [c]).
    destruct (forallb is_ws r1) eqn:F2.
    + rewrite (take_while_all _ r1 F2), (drop_while_all _ r1 F2).
      cbn [take_while drop_while]. destruct r1 as [|x r1']; [done|].
      destruct (is_ws c) eqn:Ew.
      * cbn. destruct t1; done.
      * cbn [take_while drop_while]. rewrite app_nil_r.
        destruct (is_value_char c); cbn; destruct t1; done.
    + pose proof (take_drop_while is_ws r1) as D1.
      pose proof (forallb_take_while is_ws r1) as Fw1.
      remember (take_while is_ws r1) as w1 eqn:Hw1.
      remember (drop_while is_ws r1) as r2 eqn:Hr2.
      assert (Hr2ne : r2 <> []) by (intros E; subst r2; apply drop_while_nil in E; congruence).
      clear Hw1 Hr2.
      rewrite (take_while_app is_value_char r2 [c]), (drop_while_app is_value_char r2 [c]).
      destruct (forallb is_value_char r2) eqn:F3.
      * rewrite (take_while_all _ r2 F3), (drop_while_all _ r2 F3).
        cbn [take_while drop_while]. destruct (is_value_char c) eqn:Ec.
        -- cbn. destruct r2; [done|]. destruct t1, w1; done.
        -- destruct (is_ws c) eqn:Ew.
           ++ cbn -[rev forallb]. rewrite app_nil_r.
              destruct t1 as [|t10 t1']; [done|]. destruct w1 as [|w10 w1']; [done|].
              destruct r2 as [|r20 r2']; [done|].
              rewrite Ew. destruct (forallb is_digit (t10 :: t1')) eqn:F4; [|done].
              exfalso. subst R r1.
              pose proof (value_at_det_shape [c] (rev (r20 :: r2')) (rev (w10 :: w1') ++ rev (t10 :: t1'))
                ltac:(done) ltac:(simpl; rewrite Ew; done)
                (rev_nonempty (r20 :: r2') ltac:(done)) ltac:(rewrite forallb_rev; done)) as Hs.
              rewrite !rev_app_distr, <- !app_assoc in H. cbn [app] in Hs.
              rewrite Hs in H; [done|].
              right. exists (rev (w10 :: w1')), (rev (t10 :: t1')).
              split; [done|]. split; [apply rev_nonempty; done|].
              split; [rewrite forallb_rev; done|].
              split; [apply rev_nonempty; done|]. rewrite forallb_rev; done.
           ++ rewrite app_nil_r. destruct r2; [done|]. cbn. rewrite Ew. destruct t1, w1; done.
      * pose proof (take_drop_while is_value_char r2) as D2.
        remember (take_while is_value_char r2) as t2 eqn:Ht2.
        remember (drop_while is_value_char r2) as r3 eqn:Hr3.
        assert (Hr3ne : r3 <> []) by (intros E; subst r3; apply drop_while_nil in E; congruence).
        clear Ht2 Hr3.
        rewrite (take_while_app is_ws r3 [c]).
        destruct (forallb is_ws r3) eqn:F5; [|done].
        rewrite (take_while_all _ r3 F5).
        destruct r3 as [|x r3']; [done|]. cbn -[rev forallb]. destruct t1, w1, t2; done.
Qed.

(** The search over start positions of the value regex reads the trailing
    token of the line. *)
Lemma value_re_trailing line : value_re line = trailing_token line.
Proof.
  unfold value_re, trailing_token.
  induction line as [|c s IH]; [done|].
  change (search value_re_at (c :: s)) with
    (match value_re_at (c :: s) with Some r => Some r | None => search value_re_at s end).
  rewrite value_re_at_det.
  destruct (value_at_det (c :: s)) as [v|] eqn:E.
  - symmetry. apply value_at_det_trailing. done.
  - rewrite IH. cbn [rev]. symmetry. apply value_at_det_none_trailing.
    rewrite rev_involutive. done.
Qed.

Lemma name_re_metric_name line : name_re line = metric_name line.
Proof.
  destruct line as [|c s]; [done|]. unfold name_re, metric_name.
  destruct (is_name_start c) eqn:E; [|done].
  rewrite star_total by done.
  pose proof (capture_take_while is_name_char (c :: s)) as H.
  cbn [take_while drop_while] in H |- *. unfold is_name_char in H |- *. rewrite E in H |- *.
  simpl in H. rewrite H. done.
Qed.

Lemma trim_nil_blank line : trim line = [] <-> is_blank line = true.
Proof.
  unfold trim, is_blank. split.
  - intros E. apply (f_equal (@rev ascii)) in E. rewrite rev_involutive in E. simpl in E.
    apply drop_while_nil in E. rewrite forallb_rev in E.
    rewrite <- (take_drop_while is_ws line), forallb_app, forallb_take_while, E. done.
  - intros H. rewrite (drop_while_all _ _ H). done.
Qed.

Lemma parse_line_sample metrics line :
  parse_line metrics line =
  match line_sample line with
  | Some (name, x) => set_prop metrics name x
  | None => metrics
  end.
Proof.
  unfold parse_line, line_sample. rewrite name_re_metric_name, value_re_trailing.
  replace (bool_decide (trim line = [])) with (is_blank line).
  2:{ destruct (is_blank line) eqn:E; symmetry;
      [apply bool_decide_eq_true_2 | apply bool_decide_eq_false_2];
      rewrite trim_nil_blank; congruence. }
  destruct (starts_with (js "#") line || is_blank line); [done|].
  destruct (metric_name line) as [name|], (trailing_token line) as [tok|]; try done.
  destruct (parseFloat tok); done.
Qed.

(** The parser keeps, for each name other than [__proto__], the value of
    the last line whose [line_sample] has that name. *)
Lemma parse_last_sample_all s k :
  parsePrometheusMetrics s !! k =
  if bool_decide (k = js "__proto__") then None
  else last_value k (split_on "010"%char s).
Proof.
  unfold parsePrometheusMetrics, last_value.
  generalize (split_on "010"%char s) as lines. intros lines.
  case_decide as Hk.
  - assert (Hgen : forall lines (m : gmap jsstr jsnum), m !! k = None ->
      fold_left parse_line lines m !! k = None).
    { induction lines0 as [|line lines0 IH]; simpl; intros m Hm; [done|].
      apply IH. rewrite parse_line_sample.
      destruct (line_sample line) as [[name x]|]; [|done].
      unfold set_prop. destruct (decide (name = js "__proto__")) as [Hp|Hp].
      + rewrite bool_decide_true; done.
      + rewrite bool_decide_false, lookup_insert_ne; congruence. }
    apply Hgen, lookup_empty.
  - assert (Hgen : forall lines (m : gmap jsstr jsnum) acc, m !! k = acc ->
      fold_left parse_line lines m !! k =
      fold_left (fun acc line =>
        match line_sample line with
        | Some (name, x) => if bool_decide (name = k) then Some x else acc
        | None => acc
        end) lines acc).
    { induction lines0 as [|line lines0 IH]; simpl; intros m acc Hm; [done|].
      apply IH. rewrite parse_line_sample.
      destruct (line_sample line) as [[name x]|]; [|done].
      unfold set_prop. destruct (decide (name = js "__proto__")) as [Hp|Hp].
      - rewrite bool_decide_true, bool_decide_false; congruence.
      - rewrite bool_decide_false, lookup_insert by done. case_decide as Hn.
        + rewrite bool_decide_true; done.
        + rewrite bool_decide_false; done. }
    apply Hgen, lookup_empty.
Qed.

Lemma name_char_not_delim c :
  is_name_char c = true -> (Ascii.eqb c "{"%char || is_ws c) = false.
Proof. destruct c as [[] [] [] [] [] [] [] []]; vm_compute; done. Qed.

Lemma take_while_name_leading line :
  forallb is_name_char (leading_token line) = true ->
  take_while is_name_char line = leading_token line.
Proof.
  unfold leading_token. induction line as [|c line IH]; [done|]. cbn.
  destruct (Ascii.eqb c "{"%char || is_ws c) eqn:D; cbn.
  - intros _. destruct (is_name_char c) eqn:N; [|done].
    rewrite (name_char_not_delim c N) in D. done.
  - intros [Hc Hl]%andb_prop. rewrite Hc, IH; done.
Qed.

Lemma line_sample_token_agrees line :
  names_delimited line = true -> line_sample_token line = line_sample line.
Proof.
  unfold line_sample_token, line_sample.
  destruct (starts_with (js "#") line || is_blank line); [done|].
  destruct line as [|c rest]; [done|]. unfold names_delimited, metric_name.
  destruct (is_name_start c) eqn:Hs; cbn [negb orb].
  - intros Hv. rewrite Hv. unfold valid_metric_name in Hv.
    destruct (leading_token (c :: rest)) as [|c' t] eqn:Ht; [done|].
    apply andb_prop in Hv as [_ Hv]. rewrite <- Ht in Hv |- *.
    rewrite take_while_name_leading by done. done.
  - intros _. unfold valid_metric_name, leading_token. cbn.
    destruct (negb (Ascii.eqb c "{"%char || is_ws c)); cbn; [rewrite Hs|]; done.
Qed.

(** *** C1 *)

(** C1, counterexample.  The claim reads a line's leading token as the text
    before any label block or white space, and its value as the trailing
    token.  On the source, a line with white space after the value
    ([foo 42 ]) or before the name ([ foo 42]) gives no sample, although
    the name [foo] is a valid metric name and its trailing token [42] is a
    number: the value pattern is anchored at the end of the line and the
    name pattern at its start. *)
Lemma parsePrometheusMetrics_counterexample :
  parsePrometheusMetrics (js "foo 42 ") !! js "foo" = None /\
  parsePrometheusMetrics (js " foo 42") !! js "foo" = None.
Proof. vm_compute. split; reflexivity. Qed.

(** C1 (amended).  For a text in which every line that starts with a
    metric-name character has a valid metric name as its leading token,
    [parsePrometheusMetrics] maps every name [k] other than [__proto__] to
    the value of the LAST line of the text that carries a sample named [k],
    and to nothing when no line does.  A line carries a sample when it does
    not start with [#], is not blank, its leading token (the text before
    any [{] or white space) is a valid metric name, so labels are
    discarded, and it ends with white space, a token of [[0-9.eE+-]] and
    optionally white space and an all-digit timestamp, with no trailing
    white space, and [parseFloat] of that token is not [NaN]. *)
Theorem parsePrometheusMetrics_last_sample s k :
  k <> js "__proto__" ->
  forallb names_delimited (split_on "010"%char s) = true ->
  parsePrometheusMetrics s !! k = last_token_value k (split_on "010"%char s).
Proof.
  intros Hk Hd. rewrite parse_last_sample_all, bool_decide_false by done.
  unfold last_value, last_token_value.
  generalize (@None jsnum) as acc.
  induction (split_on "010"%char s) as [|line lines IH]; intros acc; [done|].
  cbn in Hd |- *. apply andb_prop in Hd as [Hl Hd].
  rewrite (line_sample_token_agrees line Hl). apply IH, Hd.
Qed.

(** C1, witness: a labelled sample, a comment, a timestamped sample and a
    later sample of the same name; the later one is kept. *)
Lemma parsePrometheusMetrics_last_sample_witness :
  let s := js "a{x=y} 1" ++ "010"%char :: js "# HELP a" ++
           "010"%char :: js "b 2 1700000000" ++ "010"%char :: js "a 3" in
  js "a" <> js "__proto__" /\
  forallb names_delimited (split_on "010"%char s) = true /\
  parsePrometheusMetrics s !! js "a" = last_token_value (js "a") (split_on "010"%char s) /\
  last_token_value (js "a") (split_on "010"%char s) = Some (JFinite false (js "3") [] None).
Proof.
  intros s.
  assert (H1 : js "a" <> js "__proto__") by (vm_compute; congruence).
  assert (H2 : forallb names_delimited (split_on "010"%char s) = true)
    by (vm_compute; reflexivity).
  split; [exact H1|]. split; [exact H2|].
  split; [exact (parsePrometheusMetrics_last_sample s (js "a") H1 H2)|].
  vm_compute. reflexivity.
Defined.

(** *** C2 *)

(** C2, counterexample.  A pusher built without an endpoint, called on an
    empty registry: [pushMetrics] returns at its guard, so no warning is
    logged although the sample set is empty. *)
Lemma pushMetrics_no_endpoint_counterexample :
  exists p,
    MetricsPusher_new {| mc_serviceName := Some (js "svc"); mc_alloyUrl := None;
                         mc_pushInterval := None; mc_environment := None |} ∅
      = (Normal, Some p) /\
    pushMetrics p (Some []) true = ([], Normal).
Proof. eexists. split; reflexivity. Qed.

(** C2 (amended).  [pushMetrics] returns normally whatever the registry
    and the remote-write call do.  Without an endpoint it does nothing.
    With one: an empty sample set logs the warning and makes no
    remote-write call; a registry failure is logged; otherwise the samples
    are written once, with the service and environment labels, and a
    rejected write is logged, not propagated. *)
Theorem pushMetrics_never_throws p registry remote_ok :
  snd (pushMetrics p registry remote_ok) = Normal /\
  (alloyUrl p = [] -> fst (pushMetrics p registry remote_ok) = []) /\
  (alloyUrl p <> [] -> registry = None ->
     fst (pushMetrics p registry remote_ok) = [LogError "Failed to push metrics"]) /\
  (alloyUrl p <> [] -> forall text, registry = Some text ->
     parsePrometheusMetrics text = ∅ ->
     fst (pushMetrics p registry remote_ok) = [LogWarn "No metrics to push"]) /\
  (alloyUrl p <> [] -> forall text, registry = Some text ->
     parsePrometheusMetrics text <> ∅ ->
     fst (pushMetrics p registry remote_ok) =
       RemoteWrite (alloyUrl p) (serviceName p) (environment p) (parsePrometheusMetrics text)
       :: (if remote_ok then [LogDebug "Pushed metrics successfully"]
           else [LogError "Failed to push metrics"])).
Proof.
  unfold pushMetrics, push_try.
  split; [|split; [|split; [|split]]].
  - destruct (bool_decide (alloyUrl p = [])); [done|].
    destruct registry as [text|]; [|done].
    destruct (bool_decide (parsePrometheusMetrics text = ∅)); [done|].
    destruct remote_ok; done.
  - intros Hu. rewrite bool_decide_true; done.
  - intros Hu ->. rewrite bool_decide_false; done.
  - intros Hu text -> He. rewrite bool_decide_false, bool_decide_true; done.
  - intros Hu text -> He. rewrite !bool_decide_false by done.
    destruct remote_ok; done.
Qed.

(** *** C3 *)

Lemma filter_fresh_id (ts : list (nat * Z)) id :
  id ∉ map fst ts -> filter (fun t => fst t <> id) ts = ts.
Proof.
  induction ts as [|[i d] ts IH]; intros H; [done|].
  cbn [map fst] in H. apply not_elem_of_cons in H as [H1 H2].
  rewrite filter_cons_True by (cbn; congruence). rewrite IH; done.
Qed.

(** [start()] awaited to completion, then [stop()], from an idle pusher
    with an endpoint: the pusher runs with one interval of the configured
    period armed, and [stop()] disarms it and is idempotent. *)
Lemma start_then_stop_sequential w registry remote_ok :
  isRunning (pusher w) = false -> alloyUrl (pusher w) <> [] ->
  intervalId (pusher w) = None ->
  next_timer w ∉ map fst (timers w) ->
  let w1 := start w registry remote_ok in
  isActive (pusher w1) = true /\
  timers w1 = timers w ++ [(next_timer w, node_delay (pushIntervalMs (pusher w)))] /\
  isActive (pusher (stop w1)) = false /\
  timers (stop w1) = timers w /\
  stop (stop w1) = stop w1.
Proof.
  intros Hr Hu Hi Hn. unfold start, start_sync. rewrite Hr, bool_decide_false by done.
  cbn. repeat split.
  rewrite filter_app, filter_fresh_id by done. cbn.
  rewrite decide_False by congruence. apply app_nil_r.
Qed.

(** C3 (code bug).  [start()] sets [isRunning] before it awaits the
    immediate push and arms the interval only after it.  A [stop()] that
    runs while [start()] is suspended there (for instance [pusher.start();
    pusher.stop();] without awaiting) finds no interval to clear and marks
    the pusher idle; [start()] then resumes and arms the interval.  The
    pusher ends idle ([isActive()] is false) with an interval of the
    configured period armed, whose ticks still push, and that no later
    [stop()] cancels. *)
Theorem start_stop_race w registry remote_ok :
  isRunning (pusher w) = false -> alloyUrl (pusher w) <> [] ->
  intervalId (pusher w) = None ->
  let w1 := fst (start_sync w) in
  let w3 := start_resume (stop w1) registry remote_ok in
  snd (start_sync w) = true /\
  isActive (pusher w1) = true /\
  isActive (pusher w3) = false /\
  (next_timer w, node_delay (pushIntervalMs (pusher w))) ∈ timers w3 /\
  stop w3 = w3 /\
  tick w3 (next_timer w) registry remote_ok =
    emit w3 (fst (pushMetrics (pusher w3) registry remote_ok)).
Proof.
  intros Hr Hu Hi. unfold start_sync. rewrite Hr, bool_decide_false by done.
  cbn. unfold stop. cbn. rewrite Hi. cbn.
  split; [done|]. split; [done|]. split; [done|].
  split; [|split; [done|]].
  - apply elem_of_app. right. apply list_elem_of_singleton. done.
  - unfold tick. rewrite bool_decide_true; [done|].
    cbn. rewrite map_app. apply elem_of_app. right. cbn. apply list_elem_of_singleton. done.
Qed.

Lemma start_stop_race_witness :
  let w3 := start_resume (stop (fst (start_sync fresh_world))) (Some (js "up 1")) true in
  isActive (pusher w3) = false /\ (0%nat, 15000%Z) ∈ timers w3 /\ stop w3 = w3.
Proof.
  pose proof (start_stop_race fresh_world (Some (js "up 1")) true
    eq_refl ltac:(vm_compute; discriminate) eq_refl) as H.
  destruct H as (_ & _ & H1 & H2 & H3 & _). split; [exact H1 | split; [exact H2 | exact H3]].
Defined.

(** *** C4 *)

(** C4.  When the handler rejects on a message [m], the [eachMessage]
    callback returns normally (the error is not rethrown into the loop),
    the error counter grows by exactly one and the processed counter does
    not change; and the loop delivers every message, so the messages after
    [m] are still processed. *)
Theorem eachMessage_handler_error stats pre m post err :
  km_outcome m = Rejects err ->
  snd (eachMessage stats m) = Normal /\
  errorCount (fst (fst (eachMessage stats m))) = S (errorCount stats) /\
  processedCount (fst (fst (eachMessage stats m))) = processedCount stats /\
  snd (run_messages stats (pre ++ m :: post)) = pre ++ m :: post.
Proof.
  intros Hm. unfold eachMessage at 1 2 3. rewrite Hm.
  split; [done|]. split; [done|]. split; [done|].
  assert (Hall : forall l st, snd (run_messages st l) = l).
  { induction l as [|x l IH]; intros st; [done|]. cbn.
    destruct (eachMessage st x) as [[st' logs] c] eqn:E.
    assert (c = Normal) as -> by (unfold eachMessage in E; destruct (km_outcome x); congruence).
    specialize (IH st'). destruct (run_messages st' l). cbn in *. congruence. }
  apply Hall.
Qed.

Lemma eachMessage_handler_error_witness :
  let stats := {| processedCount := 3; errorCount := 1; lastProcessedAt := None;
                  stats_isRunning := true |} in
  let m := {| km_offset := 7; km_outcome := Rejects "boom"; km_now := 1000 |} in
  let next := {| km_offset := 8; km_outcome := Resolves; km_now := 1001 |} in
  errorCount (fst (fst (eachMessage stats m))) = 2 /\
  snd (run_messages stats ([] ++ m :: [next])) = [m; next].
Proof.
  pose proof (eachMessage_handler_error
    {| processedCount := 3; errorCount := 1; lastProcessedAt := None; stats_isRunning := true |}
    [] {| km_offset := 7; km_outcome := Rejects "boom"; km_now := 1000 |}
    [{| km_offset := 8; km_outcome := Resolves; km_now := 1001 |}] "boom" eq_refl) as H.
  destruct H as (_ & H1 & _ & H2). split; [exact H1 | exact H2].
Defined.

(** *** C5 *)

(** C5, counterexample.  The cache factory documents [serviceName] as
    required, yet with caching not enabled it returns a [NoOpCache] for a
    configuration without one, and it does so as well when caching is
    enabled but no Redis URL is set.  The OpenAPI middleware has no
    [serviceName] field and builds without one. *)
Lemma createRedisCache_no_serviceName_counterexample :
  fst (fst (createRedisCache {| rc_serviceName := None; rc_redisUrl := None |} ∅)) = Normal /\
  snd (createRedisCache {| rc_serviceName := None; rc_redisUrl := Some (js "redis://r:6379") |} ∅)
    = Some NoOpCacheImpl /\
  snd (createRedisCache {| rc_serviceName := Some []; rc_redisUrl := None |}
         (<[js "REDIS_CACHE_ENABLED" := js "true"]> ∅)) = Some NoOpCacheImpl /\
  fst (createOpenAPIMiddleware {| oc_schemaPath := Some (js "./openapi.yaml") |}) = Normal.
Proof. vm_compute. repeat split. Qed.

(** C5 (amended).  Each constructor below throws, having done nothing
    else, when a required field is missing or falsy: [KafkaConsumer]
    ([serviceName], then [brokers] missing or empty, [username],
    [password], [groupId]); [PostgresClient] ([serviceName], [schemaName]);
    [MetricsPusher] and [RedisCache] ([serviceName]); [createLogger]
    ([serviceName]); [createOpenAPIMiddleware] ([schemaPath], its only
    required field).  [createRedisCache] throws on a missing [serviceName]
    only when caching is enabled and a Redis URL is resolvable; otherwise
    it returns a [NoOpCache]. *)
Theorem constructors_reject_missing_fields env :
  (forall c : KafkaConfig,
     truthy_str (kc_serviceName c) = false \/
     match kc_brokers c with Some (_ :: _) => False | _ => True end \/
     truthy_str (kc_username c) = false \/ truthy_str (kc_password c) = false \/
     truthy_str (kc_groupId c) = false ->
     exists msg, KafkaConsumer_new c = (Throws msg, [])) /\
  (forall c : PostgresConfig,
     truthy_str (pc_serviceName c) = false \/ truthy_str (pc_schemaName c) = false ->
     exists msg, PostgresClient_new c env = (Throws msg, [])) /\
  (forall c : MetricsConfig, truthy_str (mc_serviceName c) = false ->
     MetricsPusher_new c env = (Throws "MetricsConfig.serviceName is required", None)) /\
  (forall c : LoggerConfig, truthy_str (lc_serviceName c) = false ->
     createLogger c env = (Throws "LoggerConfig.serviceName is required", None)) /\
  (forall c : OpenAPIConfig, truthy_str (oc_schemaPath c) = false ->
     createOpenAPIMiddleware c = (Throws "OpenAPIConfig.schemaPath is required", [])) /\
  (forall c : RedisConfig, truthy_str (rc_serviceName c) = false ->
     RedisCache_new c env = (Throws "RedisConfig.serviceName is required", None)) /\
  (forall c : RedisConfig, truthy_str (rc_serviceName c) = false ->
     createRedisCache c env =
       if bool_decide (env !! js "REDIS_CACHE_ENABLED" = Some (js "true")) then
         if truthy_str (js_or (rc_redisUrl c) (env !! js "REDIS_URL")) then
           (Throws "RedisConfig.serviceName is required", [], None)
         else (Normal, [ConsoleLine "REDIS_URL not set - caching disabled"], Some NoOpCacheImpl)
       else (Normal, [ConsoleLine "Redis caching disabled (REDIS_CACHE_ENABLED=false)"],
             Some NoOpCacheImpl)).
Proof.
  split; [|split; [|split; [|split; [|split; [|split]]]]].
  - intros c H. unfold KafkaConsumer_new.
    destruct (truthy_str (kc_serviceName c)); [|by eexists].
    destruct (kc_brokers c) as [[|b bs]|]; [by eexists| |by eexists].
    destruct (truthy_str (kc_username c)); [|by eexists].
    destruct (truthy_str (kc_password c)); [|by eexists].
    destruct (truthy_str (kc_groupId c)); [|by eexists].
    exfalso. intuition congruence.
  - intros c H. unfold PostgresClient_new.
    destruct (truthy_str (pc_serviceName c)); [|by eexists].
    destruct (truthy_str (pc_schemaName c)); [|by eexists].
    exfalso. intuition congruence.
  - intros c H. unfold MetricsPusher_new. rewrite H. done.
  - intros c H. unfold createLogger. rewrite H. done.
  - intros c H. unfold createOpenAPIMiddleware. rewrite H. done.
  - intros c H. unfold RedisCache_new. rewrite H. done.
  - intros c H. unfold createRedisCache, RedisCache_new. cbn [rc_serviceName].
    rewrite H. destruct (bool_decide _); [|done]. cbn [negb].
    destruct (truthy_str (js_or _ _)); done.
Qed.

(** *** C6 *)



(** *** C7 *)

(** C7.  When the query yields no rows, [queryOne] resolves to [null] (it
    does not reject); when it yields rows, it resolves to the first one. *)
Theorem queryOne_first_row {Row : Type} (rows : list Row) :
  (rows = [] -> snd (queryOne (Fulfilled rows)) = Fulfilled None) /\
  (forall r rest, rows = r :: rest -> snd (queryOne (Fulfilled rows)) = Fulfilled (Some r)).
Proof.
  split.
  - intros ->. reflexivity.
  - intros r rest ->. reflexivity.
Qed.

(** *** C8 *)

Lemma js_or_lit_precedence a b d :
  js_or_lit (js_or a b) d = precedence (truthy_part a) (truthy_part b) d.
Proof. destruct a as [[|x a]|], b as [[|y b]|]; reflexivity. Qed.

Lemma js_or_lit_env b d : js_or_lit b d = precedence None (truthy_part b) d.
Proof. destruct b as [[|y b]|]; reflexivity. Qed.

(** C8, counterexample.  An explicitly supplied empty [host] is not used:
    the Postgres client takes [PGHOST] instead, where the stated order would
    keep the explicit value. *)
Lemma poolConfig_empty_host_counterexample :
  let c := {| pc_serviceName := Some (js "svc"); pc_schemaName := Some (js "app");
              pc_host := Some []; pc_port := None; pc_database := None;
              pc_user := None; pc_password := None |} in
  let env := <[js "PGHOST" := js "db"]> (∅ : ProcessEnv) in
  pool_host (poolConfig c env) = js "db" /\
  precedence (pc_host c) (env !! js "PGHOST") (js "localhost") = [].
Proof. split; reflexivity. Qed.

(** C8 (amended).  Every optional field that falls back to the value of
    an environment variable follows the order explicit value, then
    environment variable, then literal default: the Postgres client's
    host, port, database, user and password, the logger's level, Loki host
    and environment, the metrics pusher's [alloyUrl] and environment, and
    the Redis cache's URL.  An empty environment variable counts as unset.
    The Postgres client, the metrics pusher and the Redis cache (which use
    [||]) also count an explicit empty string or port [0] as not supplied,
    while the logger (which uses destructuring defaults) takes any explicit
    value, even an empty one.  The logger's environment consults
    [ENVIRONMENT] and then [NODE_ENV]; the port read from [PGPORT] or
    ['5432'] goes through [parseInt].  The Loki basic-auth credentials have
    no literal default: the explicit value, else [LOKI_BASIC_AUTH] as it is,
    else none. *)
Theorem config_precedence c env :
  pool_host (poolConfig c env) =
    precedence (truthy_part (pc_host c)) (truthy_part (env !! js "PGHOST")) (js "localhost") /\
  pool_port (poolConfig c env) =
    match nonzero_part (pc_port c) with
    | Some p => Some p
    | None => parseInt10 (precedence None (truthy_part (env !! js "PGPORT")) (js "5432"))
    end /\
  pool_database (poolConfig c env) =
    precedence (truthy_part (pc_database c)) (truthy_part (env !! js "PGDATABASE")) (js "railrepay") /\
  pool_user (poolConfig c env) =
    precedence (truthy_part (pc_user c)) (truthy_part (env !! js "PGUSER")) (js "postgres") /\
  pool_password (poolConfig c env) =
    precedence (truthy_part (pc_password c)) (truthy_part (env !! js "PGPASSWORD")) (js "postgres") /\
  (forall (lc : LoggerConfig) s, createLogger lc env = (Normal, Some s) ->
     ls_level s = precedence (lc_level lc) (truthy_part (env !! js "LOG_LEVEL")) (js "info") /\
     ls_environment s =
       precedence (lc_environment lc)
         (truthy_part (js_or (env !! js "ENVIRONMENT") (env !! js "NODE_ENV"))) (js "development")) /\
  (forall (mc : MetricsConfig) p, MetricsPusher_new mc env = (Normal, Some p) ->
     alloyUrl p = precedence (truthy_part (mc_alloyUrl mc)) (truthy_part (env !! js "ALLOY_PUSH_URL")) [] /\
     environment p =
       precedence (truthy_part (mc_environment mc)) (truthy_part (env !! js "NODE_ENV")) (js "development")) /\
  (forall (lc : LoggerConfig) lo loki_ok h a app e,
     LokiTransport h a app e ∈ snd (fst (createLogger_transports lc lo env loki_ok)) ->
     h = precedence (lo_lokiHost lo) (truthy_part (env !! js "LOKI_HOST")) (js "http://localhost:3100") /\
     a = match lo_lokiBasicAuth lo with Some x => Some x | None => env !! js "LOKI_BASIC_AUTH" end) /\
  (forall (rc : RedisConfig) u, RedisCache_new rc env = (Normal, Some (RedisCacheImpl u)) ->
     u = precedence (truthy_part (rc_redisUrl rc)) (truthy_part (env !! js "REDIS_URL"))
           (js "redis://localhost:6379")).
Proof.
  unfold poolConfig; cbn [pool_host pool_port pool_database pool_user pool_password].
  rewrite !js_or_lit_precedence.
  split; [done|]. split.
  { unfold port_or, nonzero_part. f_equal.
    destruct (pc_port c) as [p|]; [case_decide|]; try done;
    unfold js_or_lit, js_or; destruct (env !! js "PGPORT") as [[|x v]|]; done. }
  split; [done|]. split; [done|]. split; [done|]. split; [|split; [|split]].
  - intros lc s Hl. unfold createLogger in Hl.
    destruct (truthy_str (lc_serviceName lc)); [|done]. cbn in Hl. injection Hl as <-.
    cbn. unfold destructure_default. rewrite !js_or_lit_env.
    split; [destruct (lc_level lc) | destruct (lc_environment lc)]; done.
  - intros mc p Hm. unfold MetricsPusher_new in Hm.
    destruct (truthy_str (mc_serviceName mc)); [|done]. cbn in Hm. injection Hm as <-.
    cbn. rewrite !js_or_lit_precedence. done.
  - intros lc lo loki_ok h a app e Hin.
    assert (Hh : destructure_default (lo_lokiHost lo)
                   (js_or_lit (env !! js "LOKI_HOST") (js "http://localhost:3100")) =
                 precedence (lo_lokiHost lo) (truthy_part (env !! js "LOKI_HOST"))
                   (js "http://localhost:3100")).
    { unfold destructure_default. rewrite js_or_lit_env. destruct (lo_lokiHost lo); done. }
    unfold createLogger_transports in Hin. cbv zeta in Hin. rewrite Hh in Hin.
    destruct (createLogger lc env) as [[|m] [ls|]]; cbn in Hin;
      try (apply not_elem_of_nil in Hin; contradiction).
    repeat case_match; cbn in Hin;
      repeat (apply elem_of_cons in Hin as [Hin|Hin]; [try discriminate Hin|]);
      try (apply not_elem_of_nil in Hin; contradiction);
      injection Hin as -> -> _ _; done.
  - intros rc u Hr. unfold RedisCache_new in Hr.
    destruct (truthy_str (rc_serviceName rc)); cbn in Hr; [|done].
    injection Hr as <-. apply js_or_lit_precedence.
Qed.

(** *** C9 *)

(** C9.  On any sequence of calls on a [NoOpCache], including a [set] of a
    key before a [get] or [exists] of it, every call settles without
    throwing, with the answer of an always-empty, disconnected cache: [get]
    gives [null], [exists], [isConnected] and [healthCheck] give [false],
    and the other methods give nothing. *)
Theorem NoOpCache_always_miss (self : NoOpCache) ops :
  snd (run_cache self ops) = map (fun op => Fulfilled (always_miss op)) ops.
Proof.
  revert self. induction ops as [|op ops IH]; intros self; [done|].
  cbn. specialize (IH self). destruct op; cbn;
    destruct (run_cache self ops) eqn:E; cbn in *; congruence.
Qed.

(** *** C10 *)

(** C10.  Unless [REDIS_CACHE_ENABLED] is exactly ['true'] and a Redis URL
    is resolvable (a non-empty [config.redisUrl], else a non-empty
    [REDIS_URL]), [createRedisCache] returns a [NoOpCache] without
    throwing; it returns a [RedisCache] only when both hold, and then one
    for that URL (it does when [serviceName] is given). *)
Theorem createRedisCache_gate c env :
  let enabled := bool_decide (env !! js "REDIS_CACHE_ENABLED" = Some (js "true")) in
  let url := js_or (rc_redisUrl c) (env !! js "REDIS_URL") in
  (enabled && truthy_str url = false ->
     fst (fst (createRedisCache c env)) = Normal /\
     snd (createRedisCache c env) = Some NoOpCacheImpl) /\
  (forall u, snd (createRedisCache c env) = Some (RedisCacheImpl u) ->
     enabled && truthy_str url = true /\ url = Some u) /\
  (enabled && truthy_str url = true -> truthy_str (rc_serviceName c) = true ->
     createRedisCache c env = (Normal, [], Some (RedisCacheImpl (default [] url)))).
Proof.
  cbn zeta. unfold createRedisCache, RedisCache_new. cbn [rc_serviceName rc_redisUrl].
  destruct (bool_decide _); cbn [andb negb]; [|split; [done|split; done]].
  destruct (js_or (rc_redisUrl c) (env !! js "REDIS_URL")) as [[|x u]|];
    cbn [truthy_str negb]; try (split; [done|split; done]).
  unfold js_or_lit, js_or. cbn [truthy_str].
  destruct (truthy_str (rc_serviceName c)); cbn [negb].
  - split; [done|]. split; [|done]. intros v Hv. injection Hv as <-. done.
  - split; [done|]. split; [|done]. done.
Qed.

(* ===================================================================== *)
(** ** Further properties of the code *)
(* ===================================================================== *)

(** *** The exposition-format parser *)

Lemma split_on_nonempty sep s : split_on sep s <> [].
Proof.
  induction s as [|c s IH]; cbn; [done|].
  destruct (Ascii.eqb c sep); [done|]. destruct (split_on sep s); done.
Qed.

Lemma split_on_app sep a b :
  split_on sep (a ++ sep :: b) = split_on sep a ++ split_on sep b.
Proof.
  induction a as [|c a IH]; cbn.
  - rewrite Ascii.eqb_refl. done.
  - rewrite IH. destruct (Ascii.eqb c sep); [done|].
    pose proof (split_on_nonempty sep a) as Hn.
    destruct (split_on sep a); done.
Qed.

Lemma parse_line_union m1 m2 line :
  parse_line (m1 ∪ m2) line = parse_line m1 line ∪ m2.
Proof.
  rewrite !parse_line_sample.
  destruct (line_sample line) as [[name x]|]; [|done].
  unfold set_prop. case_decide; [done|]. apply insert_union_l.
Qed.

Lemma fold_parse_line_union lines m1 m2 :
  fold_left parse_line lines (m1 ∪ m2) = fold_left parse_line lines m1 ∪ m2.
Proof.
  revert m1. induction lines as [|l lines IH]; intros m1; cbn; [done|].
  rewrite parse_line_union. apply IH.
Qed.

(** Parsing two exposition texts joined by a newline gives the entries of
    both, those of the second text winning over those of the first. *)
Theorem parsePrometheusMetrics_concat a b :
  parsePrometheusMetrics (a ++ "010"%char :: b) =
  parsePrometheusMetrics b ∪ parsePrometheusMetrics a.
Proof.
  unfold parsePrometheusMetrics. rewrite split_on_app, fold_left_app.
  rewrite <- (map_empty_union (fold_left parse_line (split_on "010"%char a) ∅)) at 1.
  apply fold_parse_line_union.
Qed.

Lemma line_sample_name line name x :
  line_sample line = Some (name, x) ->
  exists c rest, name = c :: rest /\ is_name_start c = true /\ forallb is_name_char name = true.
Proof.
  unfold line_sample.
  destruct (starts_with (js "#") line || is_blank line); [done|].
  unfold metric_name. destruct line as [|c rest]; [done|].
  destruct (is_name_start c) eqn:Hc; [|done].
  destruct (trailing_token (c :: rest)); [|done].
  destruct (parseFloat l); cbn; [|done]. intros [= <- _].
  assert (Hn : is_name_char c = true) by (unfold is_name_char; rewrite Hc; done).
  exists c, (take_while is_name_char rest).
  split; [cbn; rewrite Hn; done|]. split; [done|]. apply (forallb_take_while is_name_char (c :: rest)).
Qed.

(** Every key of the parsed map is a metric name: a name-start character
    followed by name characters (so never a label block or a value), and
    never [__proto__]. *)
Theorem parsePrometheusMetrics_keys s k v :
  parsePrometheusMetrics s !! k = Some v ->
  k <> js "__proto__" /\
  exists c rest, k = c :: rest /\ is_name_start c = true /\ forallb is_name_char k = true.
Proof.
  unfold parsePrometheusMetrics.
  assert (Hgen : forall lines (m : gmap jsstr jsnum),
    (forall k v, m !! k = Some v -> k <> js "__proto__" /\
       exists c rest, k = c :: rest /\ is_name_start c = true /\ forallb is_name_char k = true) ->
    forall k v, fold_left parse_line lines m !! k = Some v -> k <> js "__proto__" /\
       exists c rest, k = c :: rest /\ is_name_start c = true /\ forallb is_name_char k = true).
  { induction lines as [|l lines IH]; intros m Hm; cbn; [done|].
    apply IH. rewrite parse_line_sample.
    destruct (line_sample l) as [[name x]|] eqn:Hl; [|done].
    unfold set_prop. destruct (decide (name = js "__proto__")) as [Hp|Hp].
    { rewrite bool_decide_true by done. done. }
    rewrite bool_decide_false by done.
    intros k' v'. rewrite lookup_insert. case_decide as Hk.
    - intros _. subst k'. split; [done|]. eapply line_sample_name. done.
    - apply Hm. }
  apply Hgen. intros k' v'. rewrite lookup_empty. done.
Qed.

Lemma parsePrometheusMetrics_keys_witness :
  js "up" <> js "__proto__" /\
  exists c rest, js "up" = c :: rest /\ is_name_start c = true /\ forallb is_name_char (js "up") = true.
Proof.
  apply (parsePrometheusMetrics_keys (js "up{job=api} 1") (js "up") (JFinite false (js "1") [] None)).
  vm_compute. reflexivity.
Defined.

(** *** [MetricsPusher.start] and [stop] *)

(** [stop()] is idempotent in every state: a second call changes nothing. *)
Theorem stop_idempotent w : stop (stop w) = stop w.
Proof.
  unfold stop at 2 3. destruct (isRunning (pusher w)) eqn:Hr; cbn [negb].
  - destruct (intervalId (pusher w)); unfold stop; cbn; done.
  - unfold stop. rewrite Hr. done.
Qed.

Lemma filter_removes_id (ts : list (nat * Z)) id :
  id ∉ map fst (filter (fun t => fst t <> id) ts).
Proof.
  induction ts as [|[i d] ts IH]; [apply not_elem_of_nil|].
  rewrite filter_cons. case_decide as H; [|done].
  cbn [map fst]. apply not_elem_of_cons. cbn in H. split; [congruence|done].
Qed.

(** On an idle pusher with an endpoint, whether or not an earlier interval
    is still recorded: after [start()] has completed and [stop()] has run,
    a firing of the interval [start()] armed pushes nothing. *)
Theorem tick_after_stop w registry remote_ok registry' remote_ok' :
  isRunning (pusher w) = false -> alloyUrl (pusher w) <> [] ->
  let w2 := stop (start w registry remote_ok) in
  tick w2 (next_timer w) registry' remote_ok' = w2.
Proof.
  intros Hr Hu. unfold start, start_sync. rewrite Hr, bool_decide_false by done.
  cbn. unfold tick. rewrite bool_decide_false; [done|].
  apply filter_removes_id.
Qed.

Lemma tick_after_stop_witness :
  let w2 := stop (start fresh_world (Some (js "up 1")) true) in
  tick w2 0 (Some (js "up 2")) true = w2.
Proof.
  exact (tick_after_stop fresh_world (Some (js "up 1")) true (Some (js "up 2")) true
           eq_refl ltac:(vm_compute; discriminate)).
Defined.

(** *** [getRegistry] and [resetRegistry] *)

(** [getRegistry()] returns the same registry on every call until
    [resetRegistry()]; the first call after a reset returns a new registry,
    different from every registry returned before. *)
Theorem getRegistry_singleton st :
  registry_wf st ->
  let '(st1, r1) := getRegistry st in
  getRegistry st1 = (st1, r1) /\
  registry_wf st1 /\
  (forall r, r <= r1 -> snd (getRegistry (resetRegistry st1)) <> r).
Proof.
  unfold registry_wf, getRegistry. destruct (sharedRegistry st) as [r|] eqn:E.
  - intros Hr. rewrite E. split; [done|]. split; [done|].
    intros r' Hr'. cbn. lia.
  - intros _. cbn. split; [done|]. split; [lia|]. intros r' Hr'. lia.
Qed.

Lemma getRegistry_singleton_witness :
  let '(st1, r1) := getRegistry {| sharedRegistry := None; registries_made := 0 |} in
  getRegistry st1 = (st1, r1) /\ registry_wf st1 /\
  (forall r, r <= r1 -> snd (getRegistry (resetRegistry st1)) <> r).
Proof.
  exact (getRegistry_singleton {| sharedRegistry := None; registries_made := 0 |} I).
Defined.



(** *** The [KafkaConsumer] lifecycle *)

(** From construction on, whatever the calls and how the client library
    settles them, [getStats().isRunning] equals [isConsumerRunning()]. *)
Theorem kafka_stats_isRunning_agrees ops :
  stats_isRunning (getStats (kafka_run kafka_initial ops)) =
  isConsumerRunning (kafka_run kafka_initial ops).
Proof.
  unfold kafka_run, getStats, isConsumerRunning.
  assert (Hinv : forall ops st, stats_isRunning (consumer_stats st) = consumer_isRunning st ->
    stats_isRunning (consumer_stats (fold_left (fun st op => fst (fst (kafka_step st op))) ops st)) =
    consumer_isRunning (fold_left (fun st op => fst (fst (kafka_step st op))) ops st)).
  { induction ops0 as [|op ops0 IH]; intros st H; cbn; [done|].
    apply IH. destruct op as [r|rs rr|r|m]; cbn.
    - destruct r; done.
    - destruct rs, rr; done.
    - unfold kafka_disconnect. destruct (consumer_isRunning st) eqn:Hr; cbn; [|congruence].
      destruct r; cbn; congruence.
    - unfold eachMessage. destruct (km_outcome m); cbn; done. }
  apply Hinv. reflexivity.
Qed.

(** Every message the loop delivers is counted exactly once, as processed
    or as an error, whatever the other calls do: across any sequence of
    calls the two counters of [getStats()] together grow by the number of
    deliveries, and since construction they add up to it. *)
Theorem kafka_messages_counted st ops :
  processedCount (getStats (kafka_run st ops)) + errorCount (getStats (kafka_run st ops)) =
  processedCount (getStats st) + errorCount (getStats st) + messages_in ops /\
  processedCount (getStats (kafka_run kafka_initial ops)) +
  errorCount (getStats (kafka_run kafka_initial ops)) = messages_in ops.
Proof.
  assert (Hgen : forall st, processedCount (getStats (kafka_run st ops)) +
    errorCount (getStats (kafka_run st ops)) =
    processedCount (getStats st) + errorCount (getStats st) + messages_in ops).
  { unfold kafka_run, getStats, messages_in.
    induction ops as [|op ops IH]; intros st'; cbn; [lia|].
    rewrite IH. destruct op as [r|rs rr|r|m]; cbn.
    - destruct r; cbn; lia.
    - destruct rs, rr; cbn; lia.
    - unfold kafka_disconnect. destruct (consumer_isRunning st'); cbn; [destruct r|]; cbn; lia.
    - unfold eachMessage. destruct (km_outcome m); cbn; lia. }
  split; [apply Hgen|]. rewrite Hgen. reflexivity.
Qed.

Lemma kafka_run_running_only st1 st2 ops :
  consumer_isRunning st1 = consumer_isRunning st2 ->
  isConsumerRunning (kafka_run st1 ops) = isConsumerRunning (kafka_run st2 ops).
Proof.
  unfold kafka_run, isConsumerRunning.
  revert st1 st2. induction ops as [|op ops IH]; intros st1 st2 H; cbn; [done|].
  apply IH. destruct op as [r|rs rr|r|m]; cbn.
  - destruct r; done.
  - destruct rs; [destruct rr|]; cbn; done.
  - unfold kafka_disconnect. rewrite H.
    destruct (consumer_isRunning st2) eqn:Hr; [destruct r|]; cbn; congruence.
  - destruct (eachMessage (consumer_stats st1) m) as [[? ?] ?],
      (eachMessage (consumer_stats st2) m) as [[? ?] ?]; cbn; done.
Qed.

(** Whether the consumer reports running depends only on its [subscribe()]
    and [disconnect()] calls: [connect()] calls, whether they succeed or
    not, and the messages the loop delivers, whether their handler succeeds
    or not, never change it. *)
Theorem kafka_running_lifecycle st ops :
  isConsumerRunning (kafka_run st ops) = isConsumerRunning (kafka_run st (lifecycle_ops ops)).
Proof.
  revert st. induction ops as [|op ops IH]; intros st; [done|].
  destruct op as [r|rs rr|r|m]; cbn [lifecycle_ops List.filter].
  - unfold kafka_run at 1. cbn. fold (kafka_run (fst (fst (kafka_connect st r))) ops).
    replace (fst (fst (kafka_connect st r))) with st by (destruct r; done). apply IH.
  - unfold kafka_run. cbn. fold (kafka_run (fst (fst (kafka_subscribe st rs rr))) ops).
    fold (kafka_run (fst (fst (kafka_subscribe st rs rr))) (lifecycle_ops ops)). apply IH.
  - unfold kafka_run. cbn. fold (kafka_run (fst (fst (kafka_disconnect st r))) ops).
    fold (kafka_run (fst (fst (kafka_disconnect st r))) (lifecycle_ops ops)). apply IH.
  - unfold kafka_run at 1. cbn.
    destruct (eachMessage (consumer_stats st) m) as [[stats logs] c]. cbn.
    fold (kafka_run {| consumer_isRunning := consumer_isRunning st; consumer_stats := stats |} ops).
    rewrite IH. apply kafka_run_running_only. done.
Qed.

(** The fields every call keeps: the URL, the options and whether the
    server answers. *)
Lemma redis_call_invariants codec acc st op :
  rcs_redisUrl (fst (redis_cache_call codec acc st op)) = rcs_redisUrl st /\
  rcs_keyPrefix (fst (redis_cache_call codec acc st op)) = rcs_keyPrefix st /\
  rcs_defaultTTL (fst (redis_cache_call codec acc st op)) = rcs_defaultTTL st /\
  srv_up (rcs_server (fst (redis_cache_call codec acc st op))) = srv_up (rcs_server st).
Proof.
  destruct op; cbn [redis_cache_call settle fst];
    unfold redis_connect, redis_disconnect, redis_cache_get, redis_cache_set,
      redis_cache_delete, redis_cache_exists, redis_healthCheck, redis_setex, redis_del;
    repeat (case_match; simplify_eq/=); repeat split;
    repeat match goal with H : negb _ = false |- _ => apply negb_false_iff in H end;
    congruence.
Qed.





Lemma getKey_inj st k k' : getKey st k = getKey st k' -> k = k'.
Proof. unfold getKey. apply app_inv_head. Qed.

(** On a connected [RedisCache] whose server answers, [set(k, v, ttl)]
    with an expire time [ttl ?? defaultTTL] that Redis accepts, followed by
    [get(k')], returns [v] when [k' = k] (given that [JSON.parse] undoes
    [JSON.stringify]) and otherwise what [get(k')] returned before. *)
Theorem redis_set_get codec st k v ttl k' :
  (forall x, json_parse codec (json_stringify codec x) = Some x) ->
  rcs_ready st = true -> srv_up (rcs_server st) = true ->
  setex_expire_ok (rcs_server st) (nullish ttl (rcs_defaultTTL st)) = true ->
  snd (redis_cache_get codec (fst (redis_cache_set codec st k v ttl)) k') =
  if decide (k = k') then Fulfilled (RValue v) else snd (redis_cache_get codec st k').
Proof.
  intros Hjson Hready Hup Hok.
  unfold redis_cache_set, redis_setex. rewrite Hready, Hup, Hok. cbn.
  unfold redis_cache_get, redis_get. cbn. rewrite Hready, Hup. cbn.
  destruct (decide (k = k')) as [<-|Hne].
  - rewrite lookup_insert_eq. cbn. rewrite Hjson. reflexivity.
  - rewrite lookup_insert_ne; [|intros Heq; apply Hne, (getKey_inj st); done].
    unfold getKey. cbn. destruct (srv_store (rcs_server st) !! (rcs_keyPrefix st ++ k')); cbn;
      [case_match|]; reflexivity.
Qed.

Lemma redis_set_get_witness :
  let codec := {| json_stringify := fun x => x; json_parse := fun x => Some x |} in
  let st := {| rcs_client := true; rcs_connected := true; rcs_defaultTTL := 3600%Z;
               rcs_redisUrl := js "redis://localhost:6379";
               rcs_keyPrefix := js "rr:"; rcs_logs := [];
               rcs_server := {| srv_store := ∅; srv_up := true; srv_now := 0%Z |} |} in
  snd (redis_cache_get codec (fst (redis_cache_set codec st (js "k") (js "v") None)) (js "k")) =
  Fulfilled (RValue (js "v")).
Proof.
  intros codec st.
  rewrite (redis_set_get codec st (js "k") (js "v") None (js "k"));
    [|intros x; reflexivity|reflexivity|reflexivity|vm_compute; reflexivity].
  reflexivity.
Defined.

(** [set(k, v, ttl)] passes [ttl ?? defaultTTL] to [SETEX] as it is: an
    explicit [ttl] of 0 (or a non-positive [defaultTTL] when [ttl] is
    omitted) does not fall back to anything, Redis refuses it, nothing is
    stored and [set] still resolves; on a connected cache whose server
    answers, the refusal is logged as a SET error. *)
Theorem redis_set_nonpositive_ttl codec st k v ttl :
  (nullish ttl (rcs_defaultTTL st) <= 0)%Z ->
  snd (redis_cache_set codec st k v ttl) = Fulfilled RUndefined /\
  rcs_server (fst (redis_cache_set codec st k v ttl)) = rcs_server st /\
  (rcs_ready st = true -> srv_up (rcs_server st) = true ->
     rcs_logs (fst (redis_cache_set codec st k v ttl)) =
     rcs_logs st ++ [LogError "Redis SET error"]).
Proof.
  intros Httl.
  assert (Hok : setex_expire_ok (rcs_server st) (nullish ttl (rcs_defaultTTL st)) = false).
  { unfold setex_expire_ok. replace (0 <? nullish ttl (rcs_defaultTTL st))%Z with false; [done|].
    symmetry. apply Z.ltb_ge. exact Httl. }
  unfold redis_cache_set, redis_setex.
  destruct (rcs_ready st) eqn:Hr; cbn; [|done].
  destruct (srv_up (rcs_server st)) eqn:Hu; cbn; [rewrite Hok; cbn|]; done.
Qed.

Lemma redis_set_nonpositive_ttl_witness :
  let codec := {| json_stringify := fun x => x; json_parse := fun x => Some x |} in
  let st := {| rcs_client := true; rcs_connected := true; rcs_defaultTTL := 3600%Z;
               rcs_redisUrl := js "redis://localhost:6379";
               rcs_keyPrefix := js "rr:"; rcs_logs := [];
               rcs_server := {| srv_store := ∅; srv_up := true; srv_now := 0%Z |} |} in
  (nullish (Some 0%Z) (rcs_defaultTTL st) <= 0)%Z /\
  rcs_server (fst (redis_cache_set codec st (js "k") (js "v") (Some 0%Z))) = rcs_server st.
Proof.
  intros codec st. split; [vm_compute; discriminate|].
  apply (redis_set_nonpositive_ttl codec st (js "k") (js "v") (Some 0%Z)).
  vm_compute. discriminate.
Defined.

(** Once [isConnected()] is false (never connected, a failed [connect()],
    a [disconnect()] that went through), every data method and
    [healthCheck()] answers like a [NoOpCache] ([get] a miss, [exists] and
    [healthCheck] false, [set] and [delete] nothing), without sending
    anything to Redis, logging or changing the cache. *)
Theorem redis_disconnected_like_noop codec acc st op :
  rcs_connected st = false -> op <> OpConnect -> op <> OpDisconnect ->
  redis_cache_call codec acc st op = (st, Settled (Fulfilled (always_miss op))).
Proof.
  intros Hc H1 H2.
  assert (Hr : rcs_ready st = false) by (unfold rcs_ready; rewrite Hc; apply andb_false_r).
  destruct op; try done; cbn;
    unfold redis_cache_get, redis_cache_set, redis_cache_delete, redis_cache_exists,
      redis_healthCheck; rewrite ?Hr, ?Hc; reflexivity.
Qed.

Lemma redis_disconnected_like_noop_witness :
  let codec := {| json_stringify := fun x => x; json_parse := fun x => Some x |} in
  let st := {| rcs_client := true; rcs_connected := false; rcs_defaultTTL := 3600%Z;
               rcs_redisUrl := js "redis://localhost:6379";
               rcs_keyPrefix := js "rr:"; rcs_logs := [];
               rcs_server := {| srv_store := <[js "rr:k" := js "v"]> ∅; srv_up := true;
                                srv_now := 0%Z |} |} in
  redis_cache_call codec (fun _ => true) st (OpGet (js "k")) = (st, Settled (Fulfilled RNull)).
Proof.
  intros codec st.
  apply (redis_disconnected_like_noop codec (fun _ => true) st (OpGet (js "k")));
    [reflexivity|discriminate|discriminate].
Defined.

(** On a connected [RedisCache] whose server answers, [exists(k)] follows
    [set] and [delete]: after a [set(k, v, ttl)] that Redis accepts it is
    true; after [delete(k)] it is false and [get(k)] is a miss. *)
Theorem redis_exists_after_set_delete codec st k v ttl :
  rcs_ready st = true -> srv_up (rcs_server st) = true ->
  (setex_expire_ok (rcs_server st) (nullish ttl (rcs_defaultTTL st)) = true ->
     snd (redis_cache_exists (fst (redis_cache_set codec st k v ttl)) k) =
     Fulfilled (RBool true)) /\
  snd (redis_cache_exists (fst (redis_cache_delete st k)) k) =
  Fulfilled (RBool false) /\
  snd (redis_cache_get codec (fst (redis_cache_delete st k)) k) = Fulfilled RNull.
Proof.
  intros Hready Hup. split; [|split].
  - intros Hok. unfold redis_cache_set, redis_setex. rewrite Hready, Hup, Hok. cbn.
    unfold redis_cache_exists, redis_exists. cbn. rewrite ?Hready. cbn.
    unfold getKey. cbn. rewrite lookup_insert_eq. reflexivity.
  - unfold redis_cache_delete, redis_del. rewrite Hready, Hup. cbn.
    unfold redis_cache_exists, redis_exists. cbn. rewrite ?Hready. cbn.
    unfold getKey. cbn. rewrite lookup_delete_eq. reflexivity.
  - unfold redis_cache_delete, redis_del. rewrite Hready, Hup. cbn.
    unfold redis_cache_get, redis_get. cbn. rewrite ?Hready. cbn.
    unfold getKey. cbn. rewrite lookup_delete_eq. reflexivity.
Qed.

Lemma redis_exists_after_set_delete_witness :
  let codec := {| json_stringify := fun x => x; json_parse := fun x => Some x |} in
  let st := {| rcs_client := true; rcs_connected := true; rcs_defaultTTL := 3600%Z;
               rcs_redisUrl := js "redis://localhost:6379";
               rcs_keyPrefix := js "rr:"; rcs_logs := [];
               rcs_server := {| srv_store := <[js "rr:k" := js "v"]> ∅; srv_up := true;
                                srv_now := 0%Z |} |} in
  snd (redis_cache_get codec (fst (redis_cache_delete st (js "k"))) (js "k")) =
  Fulfilled RNull.
Proof.
  intros codec st.
  apply (redis_exists_after_set_delete codec st (js "k") (js "v") None); reflexivity.
Defined.

Lemma pg_step_ended {Row} (st : PgClientState) (op : @pg_op Row) :
  pool_ended (pg_pool st) = true -> pg_connected st = false ->
  pg_after_end op (snd (pg_step st op)) /\
  pool_ended (pg_pool (fst (pg_step st op))) = true /\
  pg_connected (fst (pg_step st op)) = false.
Proof.
  intros He Hc.
  destruct op; cbn;
    unfold pg_connect, pg_disconnect, pg_healthCheck, pool_end, pool_query;
    rewrite ?He, ?Hc; cbn; rewrite ?He, ?Hc; repeat split; eauto.
Qed.

(** [disconnect()] is final.  Once it has resolved, [isConnected()] is
    false for good: along any later sequence of calls (and whatever the
    database does) [connect()], [disconnect()] and [query()] throw, and
    [healthCheck()] and [isConnected()] answer [false]. *)
Theorem pg_disconnect_final {Row} (st : PgClientState) (ops : list (@pg_op Row)) :
  snd (pg_disconnect (Row:=Row) st) = Fulfilled PUndefined ->
  pg_connected (fst (pg_run (fst (pg_disconnect (Row:=Row) st)) ops)) = false /\
  Forall2 pg_after_end ops (snd (pg_run (fst (pg_disconnect (Row:=Row) st)) ops)).
Proof.
  intros Hd.
  assert (H : pool_ended (pg_pool (fst (pg_disconnect (Row:=Row) st))) = true /\
              pg_connected (fst (pg_disconnect (Row:=Row) st)) = false).
  { revert Hd. unfold pg_disconnect, pool_end.
    destruct (pool_ended (pg_pool st)); cbn; done. }
  destruct H as [He Hc]. generalize dependent (fst (pg_disconnect (Row:=Row) st)). clear Hd.
  induction ops as [|op ops IH]; intros st1 He Hc; cbn; [split; [done|constructor]|].
  destruct (pg_step_ended st1 op He Hc) as (Hop & He' & Hc').
  destruct (pg_step st1 op) as [st2 r] eqn:E. cbn in *.
  specialize (IH st2 He' Hc').
  destruct (pg_run st2 ops) as [st3 rs]. cbn in *.
  destruct IH as [IH1 IH2]. split; [done|]. constructor; done.
Qed.

Lemma pg_disconnect_final_witness :
  let st := {| pg_pool := {| pool_ended := false; pool_db_up := true |};
               pg_connected := true; pg_logs := [] |} in
  snd (pg_disconnect (Row:=nat) st) = Fulfilled PUndefined /\
  pg_connected (fst (pg_run (Row:=nat) (fst (pg_disconnect (Row:=nat) st)) [PgConnect; PgHealthCheck])) = false.
Proof.
  intros st. split; [reflexivity|].
  apply (pg_disconnect_final (Row:=nat) st [PgConnect; PgHealthCheck]). reflexivity.
Defined.

(** [query()] and [healthCheck()] never look at [isConnected()]: on a
    client whose [connect()] was never called they run against the pool
    and succeed when the database answers, and [isConnected()] stays
    false. *)
Theorem pg_query_without_connect {Row} (st : PgClientState) (rows : list Row) :
  pool_ended (pg_pool st) = false -> pool_db_up (pg_pool st) = true ->
  pg_connected st = false ->
  snd (pg_step st (PgQuery rows)) = Fulfilled (PRows rows) /\
  snd (pg_step (Row:=Row) st PgHealthCheck) = Fulfilled (PBool true) /\
  pg_connected (fst (pg_step st (PgQuery rows))) = false /\
  pg_connected (fst (pg_step (Row:=Row) st PgHealthCheck)) = false.
Proof.
  intros He Hu Hc. cbn. unfold pg_healthCheck, pool_query. rewrite He, Hu. cbn.
  repeat split; done.
Qed.

Lemma pg_query_without_connect_witness :
  let st := {| pg_pool := {| pool_ended := false; pool_db_up := true |};
               pg_connected := false; pg_logs := [] |} in
  snd (pg_step st (PgQuery [1; 2])) = Fulfilled (PRows [1; 2]).
Proof.
  intros st. apply (pg_query_without_connect st [1; 2]); reflexivity.
Defined.

Lemma createLogger_serviceName config env ls :
  createLogger config env = (Normal, Some ls) ->
  exists c rest, lc_serviceName config = Some (c :: rest).
Proof.
  unfold createLogger. destruct (lc_serviceName config) as [[|c rest]|]; cbn; try done.
  intros _. eauto.
Qed.

(** The logger always writes to the console: its first transport is the
    console one, at the logger's level, and there are at most two.  A Loki
    transport is there only when [lokiEnabled] holds (given explicitly, or
    else [LOKI_ENABLED] is exactly ['true']) and [NODE_ENV] is not
    ['test'] (the [ENVIRONMENT] variable and [config.environment] play no
    part in that test); its labels are the service name and the same
    environment the logger puts in its default metadata. *)
Theorem createLogger_loki_gate config lo env loki_ok :
  (fst (fst (createLogger_transports config lo env loki_ok)) = Normal ->
   exists ls rest, createLogger config env = (Normal, Some ls) /\
     snd (fst (createLogger_transports config lo env loki_ok)) =
       ConsoleTransport (ls_level ls) :: rest /\ length rest <= 1) /\
  (forall t, t ∈ snd (fst (createLogger_transports config lo env loki_ok)) ->
   match t with
   | ConsoleTransport _ => True
   | LokiTransport _ _ app e =>
       lokiEnabled_of lo env = true /\ env !! js "NODE_ENV" <> Some (js "test") /\
       lc_serviceName config = Some app /\
       exists ls, createLogger config env = (Normal, Some ls) /\ ls_environment ls = e
   end).
Proof.
  assert (HN : createLogger config env <> (Normal, None)).
  { unfold createLogger. case_match; done. }
  unfold createLogger_transports.
  destruct (createLogger config env) as [[|m] [ls|]] eqn:E; cbn; try (split; [done|set_solver]).
  destruct (createLogger_serviceName config env ls E) as (c & rest & Hs). rewrite Hs.
  destruct (lokiEnabled_of lo env) eqn:Hl; [case_bool_decide as Ht|]; cbn.
  - split; [intros _; exists ls, []; cbn; split; [done|split; [done|lia]]|].
    intros t Ht'. apply list_elem_of_singleton in Ht' as ->. done.
  - destruct loki_ok; cbn.
    + split; [intros _; eexists ls, _; split; [done|split; [reflexivity|cbn; lia]]|].
      intros t Ht'. apply elem_of_cons in Ht' as [->|Ht']; [done|].
      apply list_elem_of_singleton in Ht' as ->. eauto 10.
    + split; [intros _; exists ls, []; cbn; split; [done|split; [done|lia]]|].
      intros t Ht'. apply list_elem_of_singleton in Ht' as ->. done.
  - split; [intros _; exists ls, []; cbn; split; [done|split; [done|lia]]|].
    intros t Ht'. apply list_elem_of_singleton in Ht' as ->. done.
Qed.

Lemma read_alternatives_cons2 c d rest cur acc :
  read_alternatives (c :: d :: rest) cur acc =
  if Ascii.eqb c "092" then
    if is_regex_special d then read_alternatives rest (cur ++ [d]) acc else None
  else if Ascii.eqb c "|" then read_alternatives (d :: rest) [] (acc ++ [cur])
  else if is_regex_special c then None
  else read_alternatives (d :: rest) (cur ++ [c]) acc.
Proof. reflexivity. Qed.

Lemma read_alternatives_escape p rest cur acc :
  read_alternatives (escape_regex p ++ rest) cur acc = read_alternatives rest (cur ++ p) acc.
Proof.
  revert cur. induction p as [|c p IH]; intros cur; [by rewrite app_nil_r|].
  cbn [escape_regex flat_map]. fold (escape_regex p).
  destruct (is_regex_special c) eqn:Hc.
  - cbn [app]. rewrite read_alternatives_cons2. cbn -[is_regex_special]. rewrite Hc.
    rewrite IH, <-app_assoc. reflexivity.
  - cbn [app]. destruct (escape_regex p ++ rest) as [|d tl] eqn:E.
    + apply app_eq_nil in E as [Ep ->].
      destruct p as [|c' p]; [|cbn [escape_regex flat_map] in Ep; destruct (is_regex_special c'); done].
      cbn. destruct (Ascii.eqb c ")") eqn:Hr; [|by repeat case_match].
      apply Ascii.eqb_eq in Hr as ->. done.
    + assert (Hb : Ascii.eqb c "092" = false)
        by (destruct (Ascii.eqb c "092") eqn:H; [apply Ascii.eqb_eq in H as ->|]; done).
      assert (Hv : Ascii.eqb c "|" = false)
        by (destruct (Ascii.eqb c "|") eqn:H; [apply Ascii.eqb_eq in H as ->|]; done).
      rewrite read_alternatives_cons2, Hb, Hv, Hc, IH, <-app_assoc. reflexivity.
Qed.

Lemma read_alternatives_join p ps cur acc :
  read_alternatives (join_bar (map escape_regex (p :: ps)) ++ [")"%char]) cur acc =
  Some (acc ++ (cur ++ p) :: ps).
Proof.
  revert p cur acc. induction ps as [|q qs IH]; intros p cur acc.
  - cbn [map join_bar]. rewrite read_alternatives_escape. reflexivity.
  - change (join_bar (map escape_regex (p :: q :: qs)))
      with (escape_regex p ++ "|"%char :: join_bar (map escape_regex (q :: qs))).
    rewrite <-app_assoc, <-app_comm_cons, read_alternatives_escape.
    destruct (join_bar (map escape_regex (q :: qs)) ++ [")"%char]) as [|d tl] eqn:EJ.
    + apply app_eq_nil in EJ as [_ ?]. done.
    + rewrite read_alternatives_cons2. cbn -[read_alternatives]. rewrite <-EJ, IH.
      rewrite <-app_assoc. reflexivity.
Qed.

Lemma is_prefix_spec p s : is_prefix p s = true <-> exists t, s = p ++ t.
Proof.
  revert s. induction p as [|c p IH]; intros s; cbn; [split; eauto|].
  destruct s as [|d s]; [split; [done|intros [t ?]; done]|].
  rewrite andb_true_iff, IH. split.
  - intros [Hcd [t ->]]. apply Ascii.eqb_eq in Hcd as ->. eauto.
  - intros [t Ht]. injection Ht as -> ->. split; [apply Ascii.eqb_refl|eauto].
Qed.

(** With string entries only, the pattern [createOpenAPIMiddleware] passes
    as [ignorePaths] is [^(...)] of the escaped entries, and a request path
    matches it exactly when one of the entries is a prefix of the path:
    special characters in an entry match themselves, but an entry ['/health']
    also ignores ['/healthz'] and ['/health-internal'], and an empty entry
    ignores every path.  With no entries (or [ignorePaths] not given) no
    pattern is passed at all. *)
Theorem openapi_ignorePaths_prefix ps path :
  openapi_ignorePaths (Some []) = None /\ openapi_ignorePaths None = None /\
  (ps <> [] ->
   exists pat, openapi_ignorePaths (Some (map IgnoreString ps)) = Some pat /\
     (regex_test pat path = Some true <-> exists p t, p ∈ ps /\ path = p ++ t) /\
     (regex_test pat path = Some false <-> ~ exists p t, p ∈ ps /\ path = p ++ t)).
Proof.
  split; [done|]. split; [done|]. intros Hne.
  destruct ps as [|p ps]; [done|].
  unfold openapi_ignorePaths. rewrite bool_decide_true by (cbn; lia).
  eexists. split; [reflexivity|].
  assert (Hr : regex_test ("^"%char :: "("%char :: join_bar (map ignore_source (map IgnoreString (p :: ps))) ++ [")"%char]) path =
               Some (existsb (fun a => is_prefix a path) (p :: ps))).
  { unfold regex_test, read_anchored_pattern. cbn -[read_alternatives join_bar map].
    rewrite map_map. change (map (fun x => ignore_source (IgnoreString x)) (p :: ps))
      with (map escape_regex (p :: ps)).
    rewrite read_alternatives_join. reflexivity. }
  rewrite Hr.
  assert (Hiff : existsb (fun a => is_prefix a path) (p :: ps) = true <->
                 exists p' t, p' ∈ p :: ps /\ path = p' ++ t).
  { rewrite existsb_exists. split.
    - intros [a [Ha Hp]]. apply is_prefix_spec in Hp as [t ->].
      exists a, t. split; [by apply list_elem_of_In|done].
    - intros (a & t & Ha & ->). exists a. split; [by apply list_elem_of_In|].
      apply is_prefix_spec. eauto. }
  split.
  - rewrite <-Hiff. split; [intros H; injection H; done|intros ->; done].
  - rewrite <-Hiff. destruct (existsb _ _); split; intros H; try done.
Qed.

Lemma openapi_ignorePaths_prefix_witness :
  exists pat, openapi_ignorePaths (Some (map IgnoreString [js "/health"])) = Some pat /\
    regex_test pat (js "/healthz") = Some true.
Proof.
  destruct (openapi_ignorePaths_prefix [js "/health"] (js "/healthz")) as (_ & _ & H).
  destruct (H ltac:(discriminate)) as (pat & Hpat & Htrue & _).
  exists pat. split; [exact Hpat|]. apply Htrue.
  exists (js "/health"), (js "z"). split; [left|reflexivity].
Defined.

(** The metadata the KafkaJS log creator hands to the logger never carries
    the entry's [message] or [timestamp]; every other field of the entry
    is passed on unchanged, even [component], [namespace] or [label], which
    then replace the consumer's own tags; without such fields the tags are
    ["<serviceName>/KafkaJS"], the namespace and the label.  KafkaJS levels
    other than ERROR, WARN and INFO (NOTHING included) are logged at debug
    level. *)
Theorem kafka_log_entry_meta serviceName namespace level label log :
  let '(lvl, _, meta) := kafka_log_entry serviceName namespace level label log in
  meta !! js "message" = None /\ meta !! js "timestamp" = None /\
  (forall k v, k <> js "message" -> k <> js "timestamp" -> log !! k = Some v ->
     meta !! k = Some v) /\
  (log !! js "component" = None ->
     meta !! js "component" = Some (serviceName ++ js "/KafkaJS")) /\
  (log !! js "namespace" = None -> meta !! js "namespace" = Some namespace) /\
  (log !! js "label" = None -> meta !! js "label" = Some label) /\
  (lvl = "error"%string <-> level = 1%Z) /\
  (~ level ∈ [1; 2; 4]%Z -> lvl = "debug"%string).
Proof.
  unfold kafka_log_entry, kafka_log_meta.
  repeat split.
  - apply lookup_union_None_2; [rewrite lookup_delete_ne by done; apply lookup_delete_eq|].
    rewrite !lookup_insert_ne by done. apply lookup_empty.
  - apply lookup_union_None_2; [apply lookup_delete_eq|].
    rewrite !lookup_insert_ne by done. apply lookup_empty.
  - intros k v Hm Ht Hk. apply lookup_union_Some_l.
    rewrite lookup_delete_ne by congruence. rewrite lookup_delete_ne by congruence. done.
  - intros Hc. rewrite lookup_union_r.
    + rewrite !lookup_insert_ne by done. apply lookup_insert_eq.
    + rewrite !lookup_delete_ne by done. done.
  - intros Hc. rewrite lookup_union_r.
    + rewrite lookup_insert_ne by done. apply lookup_insert_eq.
    + rewrite !lookup_delete_ne by done. done.
  - intros Hc. rewrite lookup_union_r.
    + apply lookup_insert_eq.
    + rewrite !lookup_delete_ne by done. done.
  - unfold kafka_winston_level.
    destruct (Z.eqb_spec level 1); [done|].
    destruct (Z.eqb level 2), (Z.eqb level 4); done.
  - intros ->. done.
  - intros Hl. unfold kafka_winston_level.
    destruct (Z.eqb_spec level 1) as [->|]; [set_solver|].
    destruct (Z.eqb_spec level 2) as [->|]; [set_solver|].
    destruct (Z.eqb_spec level 4) as [->|]; [set_solver|]. done.
Qed.

Lemma redis_set_nonpositive_ttl_core codec st k v ttl :
  (nullish ttl (rcs_defaultTTL st) <= 0)%Z ->
  rcs_server (fst (redis_cache_set codec st k v ttl)) = rcs_server st /\
  rcs_defaultTTL (fst (redis_cache_set codec st k v ttl)) = rcs_defaultTTL st.
Proof.
  intros Httl.
  assert (Hok : setex_expire_ok (rcs_server st) (nullish ttl (rcs_defaultTTL st)) = false).
  { unfold setex_expire_ok. replace (0 <? nullish ttl (rcs_defaultTTL st))%Z with false; [done|].
    symmetry. apply Z.ltb_ge. exact Httl. }
  unfold redis_cache_set, redis_setex.
  destruct (rcs_ready st); cbn; [|done].
  destruct (srv_up (rcs_server st)); cbn; [rewrite Hok; cbn|]; done.
Qed.

Lemma redis_cache_set_keys codec st k v ttl :
  dom (srv_store (rcs_server (fst (redis_cache_set codec st k v ttl)))) ⊆
  {[getKey st k]} ∪ dom (srv_store (rcs_server st)).
Proof.
  unfold redis_cache_set, redis_setex.
  destruct (rcs_ready st); cbn; [|set_solver].
  destruct (srv_up (rcs_server st)); cbn; [|set_solver].
  destruct (setex_expire_ok _ _); cbn; [|set_solver].
  rewrite dom_insert_L. done.
Qed.

(** With a non-positive [defaultTTL], a call adds no key to Redis, except a
    [set] with an explicit [ttl], which may add its own key. *)
Lemma redis_call_new_keys codec acc st op :
  (rcs_defaultTTL st <= 0)%Z ->
  dom (srv_store (rcs_server (fst (redis_cache_call codec acc st op)))) ⊆
  dom (srv_store (rcs_server st)) ∪
  match op with OpSet k _ (Some _) => {[getKey st k]} | _ => ∅ end.
Proof.
  intros Hd. destruct op as [| |k|k v ttl|k|k| |]; cbn [redis_cache_call settle fst].
  - unfold redis_connect. repeat case_match; cbn; set_solver.
  - unfold redis_disconnect. repeat case_match; cbn; set_solver.
  - unfold redis_cache_get. repeat case_match; cbn; set_solver.
  - destruct ttl as [t|].
    + pose proof (redis_cache_set_keys codec st k v (Some t)). set_solver.
    + rewrite (proj1 (redis_set_nonpositive_ttl_core codec st k v None Hd)). set_solver.
  - unfold redis_cache_delete, redis_del.
    destruct (rcs_ready st); cbn; [|set_solver].
    destruct (srv_up (rcs_server st)); cbn; [|set_solver].
    rewrite dom_delete_L. set_solver.
  - unfold redis_cache_exists. repeat case_match; cbn; set_solver.
  - set_solver.
  - unfold redis_healthCheck. repeat case_match; cbn; set_solver.
Qed.

(** [defaultTTL ?? 3600] keeps an explicit [defaultTTL] of 0, which Redis
    refuses as an expire time: a [RedisCache] constructed with
    [defaultTTL: 0] never adds a key to Redis through a call of [set]
    without a [ttl], whatever else is called in between.  At the end of
    any sequence of calls, Redis holds only keys it held at the start and
    keys written by calls of [set] with an explicit [ttl] ([delete] may
    still remove keys). *)
Theorem redis_zero_defaultTTL_never_stores codec acc config opts env srv st ops :
  RedisCache_init config opts env srv = (Normal, Some st) ->
  ro_defaultTTL opts = Some 0%Z ->
  dom (srv_store (rcs_server (fst (redis_run codec acc st ops)))) ⊆
  dom (srv_store srv) ∪ explicit_ttl_keys (rcs_keyPrefix st) ops.
Proof.
  intros Hinit Hd.
  assert (Hst : rcs_defaultTTL st = 0%Z /\ rcs_server st = srv).
  { revert Hinit. unfold RedisCache_init. rewrite Hd.
    destruct (RedisCache_new config env) as [[|m] [[|u]|]]; cbn; try done.
    intros H. injection H as <-. done. }
  destruct Hst as [Hd0 Hsrv]. rewrite <-Hsrv.
  assert (Hle : (rcs_defaultTTL st <= 0)%Z) by lia. clear Hd0 Hsrv Hinit.
  revert st Hle. induction ops as [|op ops IH]; intros st Hle; cbn [redis_run]; [set_solver|].
  pose proof (redis_call_new_keys codec acc st op Hle) as Hsub.
  destruct (redis_call_invariants codec acc st op) as (_ & Hp & HT & _).
  destruct (redis_cache_call codec acc st op) as [st' [r|]] eqn:E; cbn in Hsub, Hp, HT |- *.
  - specialize (IH st' ltac:(lia)).
    destruct (redis_run codec acc st' ops) as [st'' rs]. cbn in *. rewrite Hp in IH.
    unfold explicit_ttl_keys, getKey in *.
    destruct op as [| | |k v [t|]| | | |]; cbn in *; set_solver.
  - unfold explicit_ttl_keys, getKey in *.
    destruct op as [| | |k v [t|]| | | |]; cbn in *; set_solver.
Qed.

Lemma redis_zero_defaultTTL_never_stores_witness :
  let codec := {| json_stringify := fun x => x; json_parse := fun x => Some x |} in
  let srv := {| srv_store := ∅; srv_up := true; srv_now := 0%Z |} in
  let config := {| rc_serviceName := Some (js "svc"); rc_redisUrl := None |} in
  let opts := {| ro_defaultTTL := Some 0%Z; ro_keyPrefix := None |} in
  let ops := [OpConnect; OpSet (js "k") (js "v") (Some 60%Z); OpSet (js "k2") (js "v2") None] in
  exists st, RedisCache_init config opts ∅ srv = (Normal, Some st) /\
    dom (srv_store (rcs_server (fst (redis_run codec (fun _ => true) st ops)))) ⊆
    dom (srv_store srv) ∪ explicit_ttl_keys (rcs_keyPrefix st) ops.
Proof.
  intros codec srv config opts ops.
  eexists. split; [reflexivity|].
  apply (redis_zero_defaultTTL_never_stores codec (fun _ => true) config opts ∅ srv);
    reflexivity.
Defined.
